(** * Verona runtime: the scheduler thread (src/rt/sched/schedulerthread.h)

    A shallow embedding of [SchedulerThread<T>] in its production
    configuration ([USE_SYSTEMATIC_TESTING] undefined, so [yield()] is a
    no-op), and the properties of its dispatcher, of the token-cown fairness
    mechanism, of the leak-detector (LD) protocol and of stub collection.

    The worker is modelled as one sequential thread.  Its private fields and
    the per-core data live in a [World]; everything behind an interface the
    header only calls (thread pool, global epoch, cown behaviours, the
    timestamp counter) is an oracle over an abstract environment state, and
    each such call is recorded in a chronological trace.  Assertions abort
    the run, and the three loops of the header take fuel.  What the other
    threads and the behaviours do to the shared data comes in between the
    turns of the main loop, see [reachable]. *)

From Stdlib Require Import ZArith List Bool Lia.
Import ListNotations.
Local Open Scope Z_scope.

(** ** Machine integers and pointers *)

(** [size_t], [uint64_t] and [uintptr_t] are 64 bits wide, [uint8_t] is 8. *)
Definition wrap64 (x : Z) : Z := x mod 2 ^ 64.
Definition wrap8 (x : Z) : Z := x mod 2 ^ 8.

(** A [T*] seen as the [uintptr_t] the code casts it to. *)
Definition ptr := Z.
Definition nullptr : ptr := 0.

Definition is_null (p : ptr) : bool := p =? nullptr.

(** A [Core<T>*]: cores have a stable identity, and the worker only compares
    core pointers and follows them. *)
Definition CoreId := nat.

(** [has_thread_bit]: [(uintptr_t)cown & 1], converted to [bool]. *)
Definition has_thread_bit (cown : ptr) : bool := negb (Z.land cown 1 =? 0).

(** [clear_thread_bit]: [(uintptr_t)cown & ~(uintptr_t)1]. *)
Definition clear_thread_bit (cown : ptr) : ptr :=
  Z.land cown (Z.lxor (Z.ones 64) 1).

(** ** Enumerations *)

(** Modelled from the spec: [object.h] is not part of the sources; an epoch
    mark is one of the three the header names. *)
Inductive EpochMark := EPOCH_NONE | EPOCH_A | EPOCH_B.

Definition EpochMark_eqb (a b : EpochMark) : bool :=
  match a, b with
  | EPOCH_NONE, EPOCH_NONE | EPOCH_A, EPOCH_A | EPOCH_B, EPOCH_B => true
  | _, _ => false
  end.

Module ThreadState.
(** Modelled from the spec: [threadstate.h] is not part of the sources; the
    states are the twelve the specification lists for a worker, which are
    also all the states the header names. *)
Inductive State :=
| NotInLD | WantLD | PreScan | Scan | AllInScan
| BelieveDone_Vote | BelieveDone | BelieveDone_Confirm | BelieveDone_Retract
| ReallyDone_Confirm | Sweep | Finished.

Definition eqb (a b : State) : bool :=
  match a, b with
  | NotInLD, NotInLD | WantLD, WantLD | PreScan, PreScan | Scan, Scan
  | AllInScan, AllInScan | BelieveDone_Vote, BelieveDone_Vote
  | BelieveDone, BelieveDone | BelieveDone_Confirm, BelieveDone_Confirm
  | BelieveDone_Retract, BelieveDone_Retract
  | ReallyDone_Confirm, ReallyDone_Confirm | Sweep, Sweep
  | Finished, Finished => true
  | _, _ => false
  end.

End ThreadState.

(** ** Data *)

(** The fields of a cown the scheduler touches. *)
Record Cown := mkCown {
  owning_core : option CoreId;
  epoch_mark : EpochMark;
  weak_count : Z;
  epoch_when_popped : Z;
  is_sleeping : bool (* queue.is_sleeping() of the cown's own inbox *)
}.

(** Modelled from the spec: [Object::scanned] is not part of the sources; the
    epoch mark is what the scheduler reads to decide whether a cown is scanned
    in the current send epoch. *)
Definition scanned (c : Cown) (e : EpochMark) : bool :=
  EpochMark_eqb (epoch_mark c) e.

(** Modelled from the spec: [core.h] is not part of the sources.  The run
    queue is a FIFO with tail [enqueue], [enqueue_front] and head [dequeue];
    the registry [cowns] is the chain of cowns linked through their [next]
    fields, kept as the list of its nodes in chain order. *)
Record Core := mkCore {
  q : list ptr;
  cowns : list ptr;
  total_cowns : Z;
  free_cowns : Z;
  progress_counter : Z;
  last_worker : Z;
  servicing_threads : Z;
  token_cown : ptr;
  next : CoreId
}.

Record SchedulerThread := mkSchedulerThread {
  systematic_id : Z;
  core : CoreId;
  victim : CoreId;
  running : bool;
  n_ld_tokens : Z;
  should_steal_for_fairness : bool;
  scheduled_unscanned_cown : bool;
  send_epoch : EpochMark;
  prev_epoch : EpochMark;
  state : ThreadState.State
}.

(** The member initialisers of the class; [core] is what [set_core] stored
    ([run_inner] asserts that it is not null before anything else) and
    [victim] is still unset, modelled as the worker's own core. *)
Definition new_thread (id : Z) (c : CoreId) : SchedulerThread :=
  {| systematic_id := id; core := c; victim := c; running := true;
     n_ld_tokens := 0; should_steal_for_fairness := false;
     scheduled_unscanned_cown := false;
     send_epoch := EPOCH_A; prev_epoch := EPOCH_B;
     state := ThreadState.NotInLD |}.

(** ** Calls that leave the header *)

Inductive StatKind := StatSteal | StatPause | StatUnpause | StatLifo.

(** The [Logging::cout] lines the properties below refer to. *)
Inductive LogLine :=
| SchedulerStateChange (from to : ThreadState.State)
| SendEpoch1 (e : EpochMark)
| SendEpoch2 (e : EpochMark)
| LeakingCown (c : ptr)
| ReachedLDToken.

Inductive Event :=
| CownRun (c : ptr) (st : ThreadState.State)   (* cown->run( *alloc, state) *)
| CownDealloc (c : ptr)                        (* c->dealloc( *alloc) *)
| PoolPause (woken : bool)                     (* Scheduler::get().pause() *)
| PoolUnpause (signalled : bool)               (* Scheduler::get().unpause() *)
| PoolNextState (cur nxt : ThreadState.State)  (* Scheduler::get().next_state *)
| PoolEnterBarrier
| AalTick (t : Z)                              (* Aal::tick() *)
| AalPause                                     (* Aal::pause() *)
| CoreScan (c : CoreId)                        (* core->scan() *)
| CoreTryCollect (c : CoreId) (e : EpochMark)  (* core->try_collect *)
| CoreCollect (c : CoreId)                     (* core->collect *)
| QueueDestroy (c : CoreId)                    (* core->q.destroy *)
| EpochFlushLocal
| EpochAdvance                                 (* GlobalEpoch::advance() *)
| Stats (c : CoreId) (k : StatKind)            (* core->stats.k() *)
| Logged (l : LogLine).

(** The collaborators of the worker, over an abstract state [P] of whatever
    lies outside this header: the thread pool ([Scheduler::get()] and its
    static members), the cown type [T], the queue predicate [nothing_old],
    [GlobalEpoch] and the timestamp counter.  None of them is part of the
    sources; each is a parameter. *)
Record Runtime (P : Type) := mkRuntime {
  fair : P -> bool;                          (* Scheduler::get().fair *)
  get_detect_leaks : P -> bool;              (* Scheduler::get_detect_leaks() *)
  should_scan : P -> bool;                   (* Scheduler::should_scan() *)
  no_inflight_messages : P -> bool;  (* Scheduler::no_inflight_messages() *)
  next_state : ThreadState.State -> P -> ThreadState.State * P;
  unpause : P -> bool * P;
  pause : P -> bool * P;
  stopped : P -> bool;       (* stop() has been called on the worker *)
  teardown_barrier :         (* core->collect, flush_local, enter_barrier *)
    CoreId -> (CoreId -> Core) -> (ptr -> Cown) -> P
    -> (CoreId -> Core) * (ptr -> Cown) * P;
  tick : P -> Z * P;                         (* Aal::tick() *)
  run : ptr -> ThreadState.State -> P -> bool * P;   (* T::run *)
  nothing_old : CoreId -> list ptr -> P -> bool;     (* q.nothing_old() *)
  is_outdated : Z -> P -> bool;              (* GlobalEpoch::is_outdated *)
  advance : P -> P;                          (* GlobalEpoch::advance *)
  NO_EPOCH_SET : Z                           (* T::NO_EPOCH_SET *)
}.

Arguments fair {P}.
Arguments get_detect_leaks {P}.
Arguments should_scan {P}.
Arguments no_inflight_messages {P}.
Arguments next_state {P}.
Arguments unpause {P}.
Arguments pause {P}.
Arguments stopped {P}.
Arguments teardown_barrier {P}.
Arguments tick {P}.
Arguments run {P}.
Arguments nothing_old {P}.
Arguments is_outdated {P}.
Arguments advance {P}.
Arguments NO_EPOCH_SET {P}.

Record World (P : Type) := mkWorld {
  thr : SchedulerThread;
  cores : CoreId -> Core;
  heap : ptr -> Cown;
  env : P;
  trace : list Event
}.

Arguments mkWorld {P}.
Arguments thr {P}.
Arguments cores {P}.
Arguments heap {P}.
Arguments env {P}.
Arguments trace {P}.

(** What stops a run short of its result. *)
Inductive Failure :=
| AssertNotSleeping      (* assert(!a->queue.is_sleeping()) *)
| AssertLdTokens         (* assert(n_ld_tokens == 1 || n_ld_tokens == 2) *)
| AssertTotalCowns       (* assert(this->core->total_cowns == count) *)
| AssertTokenCown        (* assert(core->token_cown) *)
| NullCore.              (* a null Core<T>* is dereferenced *)

Inductive Outcome (P A : Type) :=
| Done (a : A) (w : World P)
| Abort (f : Failure) (w : World P)
| OutOfFuel (w : World P).

Arguments Done {P A}.
Arguments Abort {P A}.
Arguments OutOfFuel {P A}.

Definition world_of {P A} (o : Outcome P A) : World P :=
  match o with Done _ w | Abort _ w | OutOfFuel w => w end.

Definition M (P A : Type) := World P -> Outcome P A.

Definition ret {P A} (a : A) : M P A := fun w => Done a w.

Definition bind {P A B} (m : M P A) (f : A -> M P B) : M P B :=
  fun w => match m w with
           | Done a w' => f a w'
           | Abort e w' => Abort e w'
           | OutOfFuel w' => OutOfFuel w'
           end.

Notation "x <- m ;; k" := (bind m (fun x => k))
  (at level 61, m at next level, right associativity).
Notation "m ;; k" := (bind m (fun _ => k))
  (at level 61, right associativity).

Definition gets {P A} (f : World P -> A) : M P A := fun w => Done (f w) w.
Definition modify {P} (f : World P -> World P) : M P unit :=
  fun w => Done tt (f w).
Definition assert_ {P} (e : Failure) (b : bool) : M P unit :=
  fun w => if b then Done tt w else Abort e w.
Definition out_of_fuel {P A} : M P A := fun w => OutOfFuel w.
Definition when {P} (b : bool) (m : M P unit) : M P unit :=
  if b then m else ret tt.

(** ** Field updates *)

Definition set_victim (v : CoreId) (t : SchedulerThread) : SchedulerThread :=
  {| systematic_id := systematic_id t; core := core t; victim := v;
     running := running t; n_ld_tokens := n_ld_tokens t;
     should_steal_for_fairness := should_steal_for_fairness t;
     scheduled_unscanned_cown := scheduled_unscanned_cown t;
     send_epoch := send_epoch t; prev_epoch := prev_epoch t;
     state := state t |}.

Definition set_running (b : bool) (t : SchedulerThread) : SchedulerThread :=
  {| systematic_id := systematic_id t; core := core t; victim := victim t;
     running := b; n_ld_tokens := n_ld_tokens t;
     should_steal_for_fairness := should_steal_for_fairness t;
     scheduled_unscanned_cown := scheduled_unscanned_cown t;
     send_epoch := send_epoch t; prev_epoch := prev_epoch t;
     state := state t |}.

Definition set_n_ld_tokens (n : Z) (t : SchedulerThread) : SchedulerThread :=
  {| systematic_id := systematic_id t; core := core t; victim := victim t;
     running := running t; n_ld_tokens := n;
     should_steal_for_fairness := should_steal_for_fairness t;
     scheduled_unscanned_cown := scheduled_unscanned_cown t;
     send_epoch := send_epoch t; prev_epoch := prev_epoch t;
     state := state t |}.

Definition set_should_steal_for_fairness (b : bool) (t : SchedulerThread)
  : SchedulerThread :=
  {| systematic_id := systematic_id t; core := core t; victim := victim t;
     running := running t; n_ld_tokens := n_ld_tokens t;
     should_steal_for_fairness := b;
     scheduled_unscanned_cown := scheduled_unscanned_cown t;
     send_epoch := send_epoch t; prev_epoch := prev_epoch t;
     state := state t |}.

Definition set_scheduled_unscanned_cown (b : bool) (t : SchedulerThread)
  : SchedulerThread :=
  {| systematic_id := systematic_id t; core := core t; victim := victim t;
     running := running t; n_ld_tokens := n_ld_tokens t;
     should_steal_for_fairness := should_steal_for_fairness t;
     scheduled_unscanned_cown := b;
     send_epoch := send_epoch t; prev_epoch := prev_epoch t;
     state := state t |}.

Definition set_send_epoch (e : EpochMark) (t : SchedulerThread)
  : SchedulerThread :=
  {| systematic_id := systematic_id t; core := core t; victim := victim t;
     running := running t; n_ld_tokens := n_ld_tokens t;
     should_steal_for_fairness := should_steal_for_fairness t;
     scheduled_unscanned_cown := scheduled_unscanned_cown t;
     send_epoch := e; prev_epoch := prev_epoch t;
     state := state t |}.

Definition set_prev_epoch (e : EpochMark) (t : SchedulerThread)
  : SchedulerThread :=
  {| systematic_id := systematic_id t; core := core t; victim := victim t;
     running := running t; n_ld_tokens := n_ld_tokens t;
     should_steal_for_fairness := should_steal_for_fairness t;
     scheduled_unscanned_cown := scheduled_unscanned_cown t;
     send_epoch := send_epoch t; prev_epoch := e;
     state := state t |}.

Definition set_state (s : ThreadState.State) (t : SchedulerThread)
  : SchedulerThread :=
  {| systematic_id := systematic_id t; core := core t; victim := victim t;
     running := running t; n_ld_tokens := n_ld_tokens t;
     should_steal_for_fairness := should_steal_for_fairness t;
     scheduled_unscanned_cown := scheduled_unscanned_cown t;
     send_epoch := send_epoch t; prev_epoch := prev_epoch t;
     state := s |}.

Definition set_q (l : list ptr) (c : Core) : Core :=
  {| q := l; cowns := cowns c; total_cowns := total_cowns c;
     free_cowns := free_cowns c; progress_counter := progress_counter c;
     last_worker := last_worker c; servicing_threads := servicing_threads c;
     token_cown := token_cown c; next := next c |}.

Definition set_cowns (l : list ptr) (c : Core) : Core :=
  {| q := q c; cowns := l; total_cowns := total_cowns c;
     free_cowns := free_cowns c; progress_counter := progress_counter c;
     last_worker := last_worker c; servicing_threads := servicing_threads c;
     token_cown := token_cown c; next := next c |}.

Definition set_total_cowns (n : Z) (c : Core) : Core :=
  {| q := q c; cowns := cowns c; total_cowns := n;
     free_cowns := free_cowns c; progress_counter := progress_counter c;
     last_worker := last_worker c; servicing_threads := servicing_threads c;
     token_cown := token_cown c; next := next c |}.

Definition set_free_cowns (n : Z) (c : Core) : Core :=
  {| q := q c; cowns := cowns c; total_cowns := total_cowns c;
     free_cowns := n; progress_counter := progress_counter c;
     last_worker := last_worker c; servicing_threads := servicing_threads c;
     token_cown := token_cown c; next := next c |}.

Definition set_progress_counter (n : Z) (c : Core) : Core :=
  {| q := q c; cowns := cowns c; total_cowns := total_cowns c;
     free_cowns := free_cowns c; progress_counter := n;
     last_worker := last_worker c; servicing_threads := servicing_threads c;
     token_cown := token_cown c; next := next c |}.

Definition set_last_worker (n : Z) (c : Core) : Core :=
  {| q := q c; cowns := cowns c; total_cowns := total_cowns c;
     free_cowns := free_cowns c; progress_counter := progress_counter c;
     last_worker := n; servicing_threads := servicing_threads c;
     token_cown := token_cown c; next := next c |}.

Definition set_servicing_threads (n : Z) (c : Core) : Core :=
  {| q := q c; cowns := cowns c; total_cowns := total_cowns c;
     free_cowns := free_cowns c; progress_counter := progress_counter c;
     last_worker := last_worker c; servicing_threads := n;
     token_cown := token_cown c; next := next c |}.

Definition set_owning_core (o : option CoreId) (c : Cown) : Cown :=
  {| owning_core := o; epoch_mark := epoch_mark c; weak_count := weak_count c;
     epoch_when_popped := epoch_when_popped c; is_sleeping := is_sleeping c |}.

(** Pointwise update of the core table and of the heap. *)
Definition upd_core (i : CoreId) (f : Core -> Core) (cs : CoreId -> Core)
  : CoreId -> Core :=
  fun j => if Nat.eqb j i then f (cs j) else cs j.

Definition upd_heap (p : ptr) (f : Cown -> Cown) (h : ptr -> Cown)
  : ptr -> Cown :=
  fun x => if x =? p then f (h x) else h x.

Section Worker.

Context {P : Type} (R : Runtime P).

Definition with_thr (f : SchedulerThread -> SchedulerThread) (w : World P)
  : World P := mkWorld (f (thr w)) (cores w) (heap w) (env w) (trace w).

Definition with_cores (f : (CoreId -> Core) -> CoreId -> Core) (w : World P)
  : World P := mkWorld (thr w) (f (cores w)) (heap w) (env w) (trace w).

Definition with_heap (f : (ptr -> Cown) -> ptr -> Cown) (w : World P)
  : World P := mkWorld (thr w) (cores w) (f (heap w)) (env w) (trace w).

Definition with_env (p : P) (w : World P) : World P :=
  mkWorld (thr w) (cores w) (heap w) p (trace w).

Definition with_event (e : Event) (w : World P) : World P :=
  mkWorld (thr w) (cores w) (heap w) (env w) (trace w ++ [e]).

(** *** Access to the worker, the cores and the cowns *)

Definition this {A} (f : SchedulerThread -> A) : M P A :=
  gets (fun w => f (thr w)).

Definition update (f : SchedulerThread -> SchedulerThread) : M P unit :=
  modify (with_thr f).

Definition core_get {A} (c : CoreId) (f : Core -> A) : M P A :=
  gets (fun w => f (cores w c)).

Definition core_upd (c : CoreId) (f : Core -> Core) : M P unit :=
  modify (with_cores (upd_core c f)).

Definition deref (p : ptr) : M P Cown := gets (fun w => heap w p).

Definition emit (e : Event) : M P unit := modify (with_event e).

Definition log (l : LogLine) : M P unit := emit (Logged l).

(** [yield()] does nothing outside systematic testing. *)
Definition yield : M P unit := ret tt.

(** *** The run queue of a core *)

Definition q_enqueue (c : CoreId) (a : ptr) : M P unit :=
  core_upd c (fun k => set_q (q k ++ [a]) k).

Definition q_enqueue_front (c : CoreId) (a : ptr) : M P unit :=
  core_upd c (fun k => set_q (a :: q k) k).

Definition q_dequeue (c : CoreId) : M P ptr :=
  l <- core_get c q ;;
  match l with
  | [] => ret nullptr
  | x :: rest => core_upd c (set_q rest) ;; ret x
  end.

Definition q_nothing_old (c : CoreId) : M P bool :=
  gets (fun w => nothing_old R c (q (cores w c)) (env w)).

(** *** The registry of a core *)

(** Modelled from the spec: [Core::drain] hands the whole registry over as a
    local list and leaves the registry empty. *)
Definition core_drain (c : CoreId) : M P (list ptr) :=
  l <- core_get c cowns ;;
  core_upd c (set_cowns []) ;;
  ret l.

(** Modelled from the spec: [Core::add_cowns] re-inserts a chain of cowns. *)
Definition core_add_cowns (c : CoreId) (l : list ptr) : M P unit :=
  core_upd c (fun k => set_cowns (l ++ cowns k) k).

(** Modelled from the spec: [Core::add_cown] links one cown in. *)
Definition core_add_cown (c : CoreId) (a : ptr) : M P unit :=
  core_upd c (fun k => set_cowns (a :: cowns k) k).

(** *** Thread pool, epoch and clock *)

Definition pool_fair : M P bool := gets (fun w => fair R (env w)).

Definition pool_get_detect_leaks : M P bool :=
  gets (fun w => get_detect_leaks R (env w)).

Definition pool_should_scan : M P bool :=
  gets (fun w => should_scan R (env w)).

Definition pool_no_inflight_messages : M P bool :=
  gets (fun w => no_inflight_messages R (env w)).

Definition pool_unpause : M P bool :=
  fun w => let (b, p) := unpause R (env w) in
           Done b (with_event (PoolUnpause b) (with_env p w)).

(** [Scheduler::get().pause()]: the worker sleeps until it is woken.  While
    it sleeps another thread may call [stop()] on it, and the worker finds
    its [running] flag cleared when [pause()] returns. *)
Definition pool_pause : M P bool :=
  fun w => let (b, p) := pause R (env w) in
           Done b (with_event (PoolPause b)
                     (with_env p (if stopped R p
                                  then with_thr (set_running false) w
                                  else w))).

Definition pool_next_state (s : ThreadState.State) : M P ThreadState.State :=
  fun w => let (s', p) := next_state R s (env w) in
           Done s' (with_event (PoolNextState s s') (with_env p w)).

Definition aal_tick : M P Z :=
  fun w => let (t, p) := tick R (env w) in
           Done (wrap64 t) (with_event (AalTick (wrap64 t)) (with_env p w)).

Definition cown_run (c : ptr) (st : ThreadState.State) : M P bool :=
  fun w => let (b, p) := run R c st (env w) in
           Done b (with_event (CownRun c st) (with_env p w)).

Definition epoch_is_outdated (e : Z) : M P bool :=
  gets (fun w => is_outdated R e (env w)).

Definition epoch_advance : M P unit :=
  fun w => Done tt (with_event EpochAdvance (with_env (advance R (env w)) w)).

Definition stats (c : CoreId) (k : StatKind) : M P unit := emit (Stats c k).

(** ** The scheduler thread *)

(** [get_token_cown()] *)
Definition get_token_cown : M P ptr :=
  me <- this core ;;
  token <- core_get me token_cown ;;
  assert_ AssertTokenCown (negb (is_null token)) ;;
  ret token.

(** [stop()] *)
Definition stop : M P unit := update (set_running false).

(** [schedule_fifo(a)]: scheduling on this thread, from this thread. *)
Definition schedule_fifo (a : ptr) : M P unit :=
  se <- this send_epoch ;;
  c <- deref a ;;
  when (negb (scanned c se)) (update (set_scheduled_unscanned_cown true)) ;;
  assert_ AssertNotSleeping (negb (is_sleeping c)) ;;
  me <- this core ;;
  q_enqueue me a ;;
  signalled <- pool_unpause ;;
  when signalled (stats me StatUnpause).

(** [schedule_lifo(c, a)]: a cown coming from an external source. *)
Definition schedule_lifo (c : CoreId) (a : ptr) : M P unit :=
  q_enqueue_front c a ;;
  stats c StatLifo ;;
  signalled <- pool_unpause ;;
  when signalled (stats c StatUnpause).

(** [fast_steal(result)]: [Some c] stands for [true] with [result = c],
    [None] for [false], which leaves [result] alone. *)
Definition fast_steal : M P (option ptr) :=
  v <- this victim ;;
  me <- this core ;;
  cown <- (if negb (Nat.eqb v me) then q_dequeue v else ret nullptr) ;;
  if negb (is_null cown) then ret (Some cown)
  else
    (* We were unable to steal, move to the next victim thread. *)
    nv <- core_get v next ;;
    update (set_victim nv) ;;
    ret None.

(** [dec_n_ld_tokens()] *)
Definition dec_n_ld_tokens : M P unit :=
  n <- this n_ld_tokens ;;
  assert_ AssertLdTokens ((n =? 1) || (n =? 2)) ;;
  log ReachedLDToken ;;
  update (set_n_ld_tokens (wrap8 (n - 1))).

(** [prerun(cown)]: [false] for a token, [true] for a real cown. *)
Definition prerun (cown : ptr) : M P bool :=
  if has_thread_bit cown then
    let unmasked := clear_thread_bit cown in
    u <- deref unmasked ;;
    me <- this core ;;
    match owning_core u with
    | None => fun w => Abort NullCore w
    | Some owner =>
        (if Nat.eqb owner me then
           f <- pool_fair ;;
           when f (update (set_should_steal_for_fairness true)) ;;
           n <- this n_ld_tokens ;;
           when (0 <? n) dec_n_ld_tokens
         else ret tt) ;;
        (* Put back the token *)
        q_enqueue owner cown ;;
        ret false
    end
  else
    c <- deref cown ;;
    match owning_core c with
    | None =>
        me <- this core ;;
        modify (with_heap (upd_heap cown (set_owning_core (Some me)))) ;;
        core_add_cown me cown ;;
        core_upd me (fun k => set_total_cowns (wrap64 (total_cowns k + 1)) k)
    | Some _ => ret tt
    end ;;
    ret true.

(** [ld_state_change(snext)] *)
Definition ld_state_change (snext : ThreadState.State) : M P unit :=
  s <- this state ;;
  log (SchedulerStateChange s snext) ;;
  update (set_state snext).

(** [want_ld()] *)
Definition want_ld : M P unit :=
  s <- this state ;;
  when (ThreadState.eqb s ThreadState.NotInLD)
       (ld_state_change ThreadState.WantLD).

(** [ld_checkpoint_reached()] *)
Definition ld_checkpoint_reached : M P bool :=
  n <- this n_ld_tokens ;; ret (n =? 0).

(** [in_sweep_state()] *)
Definition in_sweep_state : M P bool :=
  s <- this state ;; ret (ThreadState.eqb s ThreadState.Sweep).

(** [enter_prescan()] *)
Definition enter_prescan : M P unit :=
  (* Save epoch for when we start scanning *)
  e <- this send_epoch ;;
  update (set_prev_epoch e) ;;
  update (set_send_epoch EPOCH_NONE) ;;
  e' <- this send_epoch ;;
  log (SendEpoch1 e').

(** [enter_scan()] *)
Definition enter_scan : M P unit :=
  p <- this prev_epoch ;;
  update (set_send_epoch (if EpochMark_eqb p EPOCH_B then EPOCH_A
                          else EPOCH_B)) ;;
  e' <- this send_epoch ;;
  log (SendEpoch2 e') ;;
  me <- this core ;;
  emit (CoreScan me) ;;
  update (set_n_ld_tokens 2) ;;
  update (set_scheduled_unscanned_cown false).

(** [collect_cowns()] *)
Definition collect_cowns : M P unit :=
  me <- this core ;;
  e <- this send_epoch ;;
  emit (CoreTryCollect me e).

(** The actions [ld_protocol] takes when a state transition has occurred:
    the [switch (state)] of its loop.  [true] stands for [continue], [false]
    for [return]. *)
Definition ld_transition_actions (sprev : ThreadState.State) : M P bool :=
  s <- this state ;;
  me <- this core ;;
  match s with
  | ThreadState.PreScan =>
      signalled <- pool_unpause ;;
      when signalled (stats me StatUnpause) ;;
      enter_prescan ;;
      ret false
  | ThreadState.Scan =>
      when (negb (ThreadState.eqb sprev ThreadState.PreScan)) enter_prescan ;;
      enter_scan ;;
      ret false
  | ThreadState.AllInScan =>
      when (ThreadState.eqb sprev ThreadState.PreScan) enter_scan ;;
      ret false
  | ThreadState.BelieveDone =>
      u <- this scheduled_unscanned_cown ;;
      (if u then ld_state_change ThreadState.BelieveDone_Retract
       else ld_state_change ThreadState.BelieveDone_Confirm) ;;
      ret true
  | ThreadState.ReallyDone_Confirm => ret true
  | ThreadState.Sweep => collect_cowns ;; ret true
  | _ => ret true
  end.

(** The [while (true)] of [ld_protocol]; the [first] flag only guards a log
    line and is left out. *)
Fixpoint ld_protocol_loop (fuel : nat) : M P unit :=
  match fuel with
  | O => out_of_fuel
  | S fuel' =>
      sprev <- this state ;;
      yield ;;
      snext <- pool_next_state sprev ;;
      (* If we have a lost wake-up, then all threads can get stuck
         trying to perform a LD. *)
      (if ThreadState.eqb sprev ThreadState.PreScan
          && ThreadState.eqb snext ThreadState.PreScan
       then signalled <- pool_unpause ;;
            me <- this core ;;
            when signalled (stats me StatUnpause)
       else ret tt) ;;
      if ThreadState.eqb snext sprev then ret tt
      else
        yield ;;
        ld_state_change snext ;;
        again <- ld_transition_actions sprev ;;
        if again then ld_protocol_loop fuel' else ret tt
  end.

(** [ld_protocol()]: play catch up with the global state, and vote. *)
Definition ld_protocol (fuel : nat) : M P unit :=
  s <- this state ;;
  reached <- ld_checkpoint_reached ;;
  (if ThreadState.eqb s ThreadState.AllInScan && reached then
     u <- this scheduled_unscanned_cown ;;
     quiet <- pool_no_inflight_messages ;;
     if negb u && quiet then ld_state_change ThreadState.BelieveDone_Vote
     else enter_scan
   else ret tt) ;;
  ld_protocol_loop fuel.

Definition TSC_QUIESCENCE_TIMEOUT : Z := 1000000.

(** The [while (running)] of [steal()]. *)
Fixpoint steal_loop (fuel : nat) (tsc : Z) : M P ptr :=
  match fuel with
  | O => out_of_fuel
  | S fuel' =>
      r <- this running ;;
      if negb r then ret nullptr
      else
        yield ;;
        me <- this core ;;
        old <- q_nothing_old me ;;
        when old (update (set_n_ld_tokens 0)) ;;
        (* Participate in the cown LD protocol. *)
        ld_protocol fuel' ;;
        (* Check if some other thread has pushed work on our queue. *)
        cown <- q_dequeue me ;;
        if negb (is_null cown) then ret cown
        else
          (* Try to steal from the victim thread. *)
          v <- this victim ;;
          cown <- (if negb (Nat.eqb v me) then q_dequeue v else ret cown) ;;
          if negb (Nat.eqb v me) && negb (is_null cown) then
            stats me StatSteal ;; ret cown
          else
            (* We were unable to steal, move to the next victim thread. *)
            nv <- core_get v next ;;
            update (set_victim nv) ;;
            (* Wait until a minimum timeout has passed. *)
            tsc2 <- aal_tick ;;
            if wrap64 (tsc2 - tsc) <? TSC_QUIESCENCE_TIMEOUT then
              emit AalPause ;; steal_loop fuel' tsc
            else
              (* Enter sleep only if we aren't executing the leak detector
                 currently. *)
              s <- this state ;;
              (if ThreadState.eqb s ThreadState.NotInLD then
                 woken <- pool_pause ;;
                 when woken (stats me StatPause)
               else ret tt) ;;
              steal_loop fuel' tsc
  end.

(** [steal()] *)
Definition steal (fuel : nat) : M P ptr :=
  tsc <- aal_tick ;;
  steal_loop fuel tsc.

(** The [while ( *p != nullptr)] of [collect_cown_stubs]: a walk along the
    drained chain.  A cown the walk steps over stays linked; [*p = c->next]
    takes it out.  The result is the chain that is left, with the final
    [removed_count] and [count]. *)
Fixpoint stub_walk (during_teardown : bool) (chain : list ptr)
    (removed_count count : Z) : M P (list ptr * Z * Z) :=
  match chain with
  | [] => ret ([], removed_count, count)
  | c :: rest =>
      let count := wrap64 (count + 1) in
      cw <- deref c ;;
      (* Collect cown stubs when the weak count is zero. *)
      if (weak_count cw =? 0) || during_teardown then
        dropped <-
          (if negb (weak_count cw =? 0) then
             log (LeakingCown c) ;; pool_get_detect_leaks
           else ret false) ;;
        if dropped then stub_walk during_teardown rest removed_count count
        else
          let epoch := epoch_when_popped cw in
          outdated <-
            (if epoch =? NO_EPOCH_SET R then ret true
             else epoch_is_outdated epoch) ;;
          if outdated then
            let removed_count := wrap64 (removed_count + 1) in
            emit (CownDealloc c) ;;
            stub_walk during_teardown rest removed_count count
          else
            r <- stub_walk during_teardown rest removed_count count ;;
            let '(kept, removed_count, count) := r in
            ret (c :: kept, removed_count, count)
      else
        r <- stub_walk during_teardown rest removed_count count ;;
        let '(kept, removed_count, count) := r in
        ret (c :: kept, removed_count, count)
  end.

(** [collect_cown_stubs<during_teardown>()].  When the chain that is left is
    not empty its last node is the [tail] the code asserts to be non-null. *)
Definition collect_cown_stubs (during_teardown : bool) : M P unit :=
  s <- this state ;;
  match s with
  | ThreadState.ReallyDone_Confirm | ThreadState.Finished => ret tt
  | _ =>
      me <- this core ;;
      chain <- core_drain me ;;
      r <- stub_walk during_teardown chain 0 0 ;;
      let '(kept, removed_count, count) := r in
      (* Put the list back *)
      when (negb (match kept with [] => true | _ => false end))
           (core_add_cowns me kept) ;;
      total <- core_get me total_cowns ;;
      assert_ AssertTotalCowns (total =? count) ;;
      core_upd me (fun k => set_free_cowns
                              (wrap64 (free_cowns k - removed_count)) k) ;;
      core_upd me (fun k => set_total_cowns
                              (wrap64 (total_cowns k - removed_count)) k)
  end.

(** The reschedule policy of [run_inner], taken when [cown->run] returned
    [true]; the result is the next value of the local [cown]. *)
Definition reschedule (cown : ptr) : M P ptr :=
  ssf <- this should_steal_for_fairness ;;
  if ssf then
    schedule_fifo cown ;; ret nullptr
  else
    c <- deref cown ;;
    assert_ AssertNotSleeping (negb (is_sleeping c)) ;;
    (* Push to the back of the queue if the queue is not empty, otherwise
       run this cown again. *)
    me <- this core ;;
    n <- q_dequeue me ;;
    if negb (is_null n) then
      schedule_fifo cown ;; ret n
    else
      old <- q_nothing_old me ;;
      if old then
        (* We have effectively reached token cown. *)
        update (set_n_ld_tokens 0) ;;
        f <- pool_fair ;;
        stolen <- (if f then fast_steal else ret None) ;;
        match stolen with
        | Some s => schedule_fifo cown ;; ret s
        | None => ret cown
        end
      else ret cown.

(** One turn of the [while (true)] of [run_inner], from the administrative
    work on: [prerun], the LD protocol, the run and the reschedule.  The
    result is the next value of the local [cown]. *)
Definition dispatch (fuel : nat) (cown : ptr) : M P ptr :=
  real <- prerun cown ;;
  if negb real then ret nullptr
  else
    scan <- pool_should_scan ;;
    c <- deref cown ;;
    se <- this send_epoch ;;
    when (scan && negb (EpochMark_eqb (epoch_mark c) se))
         (update (set_scheduled_unscanned_cown true)) ;;
    ld_protocol fuel ;;
    (* Update progress counter on that core. *)
    c <- deref cown ;;
    me <- this core ;;
    let cown_core := owning_core c in
    match cown_core with
    | Some cc =>
        core_upd cc (fun k => set_progress_counter
                                (wrap64 (progress_counter k + 1)) k)
    | None => ret tt
    end ;;
    when (negb (match cown_core with
                | Some cc => Nat.eqb cc me
                | None => false
                end))
         (core_upd me (fun k => set_progress_counter
                                  (wrap64 (progress_counter k + 1)) k)) ;;
    id <- this systematic_id ;;
    core_upd me (set_last_worker id) ;;
    st <- this state ;;
    resched <- cown_run cown st ;;
    next_cown <- (if resched then reschedule cown else ret nullptr) ;;
    yield ;;
    ret next_cown.

(** The head of a turn: stub collection, the fairness steal, the local
    dequeue and the blocking steal.  A null result ends the loop. *)
Definition select (fuel : nat) (cown : ptr) : M P ptr :=
  me <- this core ;;
  total <- core_get me total_cowns ;;
  free <- core_get me free_cowns ;;
  when (total <? wrap64 (Z.shiftl free 1)) (collect_cown_stubs false) ;;
  ssf <- this should_steal_for_fairness ;;
  cown <- (if ssf && is_null cown then
             update (set_should_steal_for_fairness false) ;;
             stolen <- fast_steal ;;
             ret (match stolen with Some s => s | None => cown end)
           else ret cown) ;;
  cown <- (if is_null cown then q_dequeue me else ret cown) ;;
  if is_null cown then steal fuel else ret cown.

(** One turn of the [while (true)] of [run_inner]: [None] stands for
    [break], [Some c] for the value of the local [cown] at the next turn. *)
Definition turn (fuel : nat) (cown : ptr) : M P (option ptr) :=
  cown <- select fuel cown ;;
  (* If we can't steal, we are done. *)
  if is_null cown then ret None
  else
    next_cown <- dispatch fuel cown ;;
    ret (Some next_cown).

(** The [while (true)] of [run_inner]. *)
Fixpoint run_loop (fuel : nat) (cown : ptr) : M P unit :=
  match fuel with
  | O => out_of_fuel
  | S fuel' =>
      r <- turn fuel' cown ;;
      match r with
      | None => ret tt
      | Some next_cown => run_loop fuel' next_cown
      end
  end.

(** [run_inner], from [startup(args...)] to the loop. *)
Definition run_inner_prologue : M P unit :=
  me <- this core ;;
  nx <- core_get me next ;;
  update (set_victim nx) ;;
  core_upd me (fun k => set_servicing_threads
                          (wrap64 (servicing_threads k + 1)) k).

(** [run_inner], after the loop: phase 1 of the teardown.  [core->collect],
    [Epoch::flush_local] and the barrier are not in the sources; what they,
    and the other threads until all have arrived, leave of the cores, the
    cowns and the state behind the interfaces is [teardown_barrier]. *)
Definition teardown_phase_1 : M P unit :=
  me <- this core ;;
  emit (CoreCollect me) ;;
  emit EpochFlushLocal ;;
  emit PoolEnterBarrier ;;
  modify (fun w =>
            let '(cs, h, p) :=
              teardown_barrier R me (cores w) (heap w) (env w) in
            mkWorld (thr w) cs h p (trace w)).

(** Phase 2 of the teardown. *)
Definition teardown_phase_2 : M P unit :=
  epoch_advance ;;
  collect_cown_stubs true ;;
  me <- this core ;;
  val <- core_get me servicing_threads ;;
  core_upd me (fun k => set_servicing_threads
                          (wrap64 (servicing_threads k - 1)) k) ;;
  when (val =? 1) (emit (QueueDestroy me)).

(** [run_inner], after the loop: the two phases of the teardown. *)
Definition run_inner_teardown : M P unit :=
  teardown_phase_1 ;;
  teardown_phase_2.

(** [run_inner(startup, args...)]; the local [cown] starts as [nullptr]. *)
Definition run_inner (fuel : nat) : M P unit :=
  run_inner_prologue ;;
  run_loop fuel nullptr ;;
  run_inner_teardown.

(** *** The worker among the others *)

(** The member functions the thread pool and the cowns call on a worker. *)
Inductive called_from_outside : M P unit -> Prop :=
| call_schedule_fifo (a : ptr) : called_from_outside (schedule_fifo a)
| call_schedule_lifo (c : CoreId) (a : ptr) :
    called_from_outside (schedule_lifo c a)
| call_want_ld : called_from_outside want_ld
| call_stop : called_from_outside stop.

(** The worker at the head of its loop, holding [cown]: a fresh thread that
    has run the prologue, then any number of turns, of calls from outside,
    and of changes other threads and the behaviours make to what is shared
    (cores, cowns, and the state behind the interfaces). *)
Inductive reachable : ptr -> World P -> Prop :=
| reach_start id c cs h p w :
    run_inner_prologue (mkWorld (new_thread id c) cs h p []) = Done tt w ->
    reachable nullptr w
| reach_turn fuel cown w next_cown w' :
    reachable cown w ->
    turn fuel cown w = Done (Some next_cown) w' ->
    reachable next_cown w'
| reach_call m cown w w' :
    reachable cown w ->
    called_from_outside m ->
    m w = Done tt w' ->
    reachable cown w'
| reach_shared cown w cs h p :
    reachable cown w ->
    reachable cown (mkWorld (thr w) cs h p (trace w)).

End Worker.

Arguments ret {P A} a _ /.
Arguments bind {P A B} m f _ /.
Arguments gets {P A} f _ /.
Arguments modify {P} f _ /.
Arguments assert_ {P} e b _ /.
Arguments out_of_fuel {P A} _ /.

(** * What the properties are stated with *)

Section Expectations.

Context {P : Type} (R : Runtime P).

(** ** Stub collection *)

(** The epoch test of the walk, on the heap and environment it reads. *)
Definition outdated (h : ptr -> Cown) (p : P) (c : ptr) : bool :=
  (epoch_when_popped (h c) =? NO_EPOCH_SET R)
  || is_outdated R (epoch_when_popped (h c)) p.

(** A cown of the chain is kept linked, unlinked and deallocated, or unlinked
    and left alone. *)
Inductive Fate := Retained | Freed | Dropped.

Definition fate (during_teardown : bool) (h : ptr -> Cown) (p : P) (c : ptr)
  : Fate :=
  if weak_count (h c) =? 0 then
    if outdated h p c then Freed else Retained
  else if during_teardown then
    if get_detect_leaks R p then Dropped
    else if outdated h p c then Freed else Retained
  else Retained.

Definition is_retained (f : Fate) : bool :=
  match f with Retained => true | _ => false end.

Definition is_freed (f : Fate) : bool :=
  match f with Freed => true | _ => false end.

Definition retained (dt : bool) (h : ptr -> Cown) (p : P) (l : list ptr)
  : list ptr := filter (fun c => is_retained (fate dt h p c)) l.

Definition freed (dt : bool) (h : ptr -> Cown) (p : P) (l : list ptr)
  : list ptr := filter (fun c => is_freed (fate dt h p c)) l.

(** The events of a walk over [l]. *)
Definition walk_events (dt : bool) (h : ptr -> Cown) (p : P) (l : list ptr)
  : list Event :=
  flat_map (fun c =>
              (if dt && negb (weak_count (h c) =? 0)
               then [Logged (LeakingCown c)] else [])
              ++ (if is_freed (fate dt h p c) then [CownDealloc c] else []))
           l.

(** A cown the non-teardown walk deallocates: weak count zero, and the epoch
    it was popped in is the sentinel or outdated. *)
Definition collectable (h : ptr -> Cown) (p : P) (c : ptr) : bool :=
  (weak_count (h c) =? 0) && outdated h p c.

(** ** Rescheduling *)

(** What the claim C4 says becomes of the cown that has just run. *)
Inductive Verdict :=
| Requeue (next_cown : ptr)   (* tail-enqueue it, go on with [next_cown] *)
| KeepRunning.                (* go on with it, do not enqueue it *)

Definition local_pop (w : World P) : ptr :=
  hd nullptr (q (cores w (core (thr w)))).

(** What one [fast_steal] takes from the victim: [nullptr] if it fails. *)
Definition steal_target (w : World P) : ptr :=
  if Nat.eqb (victim (thr w)) (core (thr w)) then nullptr
  else hd nullptr (q (cores w (victim (thr w)))).

Definition queue_looks_drained (w : World P) : bool :=
  nothing_old R (core (thr w)) (tl (q (cores w (core (thr w))))) (env w).

Definition verdict (w : World P) : Verdict :=
  if should_steal_for_fairness (thr w) then Requeue nullptr
  else if negb (is_null (local_pop w)) then Requeue (local_pop w)
  else if queue_looks_drained w && fair R (env w)
          && negb (is_null (steal_target w))
       then Requeue (steal_target w)
  else KeepRunning.

(** ** Epochs, tokens and runs *)

Definition flip_epoch (prev : EpochMark) : EpochMark :=
  if EpochMark_eqb prev EPOCH_B then EPOCH_A else EPOCH_B.

(** A send epoch may stay, or move along an edge of the cycle
    EPOCH_A -> EPOCH_NONE -> EPOCH_B -> EPOCH_NONE -> EPOCH_A. *)
Definition cycle_edge (a b : EpochMark) : bool :=
  match a, b with
  | EPOCH_A, EPOCH_NONE | EPOCH_NONE, EPOCH_B
  | EPOCH_B, EPOCH_NONE | EPOCH_NONE, EPOCH_A => true
  | _, _ => false
  end.

Definition epoch_step (cur : option EpochMark) (e : Event)
  : option EpochMark :=
  match cur, e with
  | Some c, Logged (SendEpoch1 x) | Some c, Logged (SendEpoch2 x) =>
      if EpochMark_eqb c x || cycle_edge c x then Some x else None
  | _, _ => cur
  end.

(** The send epoch a trace ends in when read from [start], if every
    [send_epoch] line of it stays or follows an edge of the cycle. *)
Definition epoch_walk (start : EpochMark) (l : list Event)
  : option EpochMark := fold_left epoch_step l (Some start).

Definition run_untagged (e : Event) : bool :=
  match e with
  | CownRun c _ => negb (has_thread_bit c)
  | _ => true
  end.

(** What holds of a worker all along: the LD tokens left are 0, 1 or 2, no
    value with the thread bit has been run, the [send_epoch] lines have stayed
    on the edges of the cycle and end in the send epoch of the worker, which
    is [EPOCH_NONE] or the flip of the saved one. *)
Record worker_inv (w : World P) : Prop := {
  inv_tokens : n_ld_tokens (thr w) = 0 \/ n_ld_tokens (thr w) = 1
               \/ n_ld_tokens (thr w) = 2;
  inv_runs : forallb run_untagged (trace w) = true;
  inv_walk : epoch_walk EPOCH_A (trace w) = Some (send_epoch (thr w));
  inv_flip : send_epoch (thr w) = EPOCH_NONE
             \/ send_epoch (thr w) = flip_epoch (prev_epoch (thr w))
}.

(** [m], started where [I] holds, keeps [I] however it ends, returns only
    values in [Q] and does not fail an assertion in [bad]. *)
Definition triple {A} (I : World P -> Prop) (m : M P A) (Q : A -> Prop)
    (bad : Failure -> Prop) : Prop :=
  forall w, I w ->
    match m w with
    | Done a w' => I w' /\ Q a
    | Abort e w' => I w' /\ ~ bad e
    | OutOfFuel w' => I w'
    end.

Definition anything {A} : A -> Prop := fun _ => True.
Definition no_ld_assert : Failure -> Prop := fun e => e = AssertLdTokens.
Definition no_failure : Failure -> Prop := fun _ => False.

(** The cycle in its order: the worker is at [EPOCH_A], has left it for
    [EPOCH_NONE], is at [EPOCH_B], or has left that for [EPOCH_NONE]. *)
Inductive Phase := AtA | LeavingA | AtB | LeavingB.

Definition phase_epoch (ph : Phase) : EpochMark :=
  match ph with
  | AtA => EPOCH_A
  | AtB => EPOCH_B
  | LeavingA | LeavingB => EPOCH_NONE
  end.

Definition next_phase (ph : Phase) : Phase :=
  match ph with
  | AtA => LeavingA
  | LeavingA => AtB
  | AtB => LeavingB
  | LeavingB => AtA
  end.

(** The epoch [prev_epoch] holds in each phase. *)
Definition saved_epoch (ph : Phase) : EpochMark :=
  match ph with
  | AtA | LeavingB => EPOCH_B
  | AtB | LeavingA => EPOCH_A
  end.

Definition leaving (ph : Phase) : bool :=
  match ph with
  | LeavingA | LeavingB => true
  | AtA | AtB => false
  end.

Definition phase_step (cur : option Phase) (e : Event) : option Phase :=
  match cur, e with
  | Some ph, Logged (SendEpoch1 x) | Some ph, Logged (SendEpoch2 x) =>
      if EpochMark_eqb x (phase_epoch ph) then Some ph
      else if EpochMark_eqb x (phase_epoch (next_phase ph))
           then Some (next_phase ph)
           else None
  | _, _ => cur
  end.

(** The phase a trace ends in, if every [send_epoch] line of it repeats the
    epoch of the phase before or is the epoch of the next phase. *)
Definition cycle_phase (l : list Event) : option Phase :=
  fold_left phase_step l (Some AtA).

(** The worker is where the lines have taken it, with [prev_epoch] what the
    phase makes it, and it is on its way between the two epochs exactly when
    it is in [PreScan]. *)
Definition in_cycle (w : World P) : Prop :=
  exists ph,
    cycle_phase (trace w) = Some ph
    /\ send_epoch (thr w) = phase_epoch ph
    /\ prev_epoch (thr w) = saved_epoch ph
    /\ ThreadState.eqb (state (thr w)) ThreadState.PreScan = leaving ph.

(** The thread pool moves a worker that is in [PreScan] on to [Scan] or to
    [AllInScan] only. *)
Definition orderly : Prop :=
  forall p : P,
    let s := fst (next_state R ThreadState.PreScan p) in
    s = ThreadState.PreScan \/ s = ThreadState.Scan
    \/ s = ThreadState.AllInScan.


(** ** Parking *)

(** Reading the trace of a [steal()] that took its first timestamp [tsc]:
    the LD state the worker is in, the timestamp it took last, and whether
    every [pause()] of the thread pool so far came in the state [NotInLD]
    with the last timestamp at least [TSC_QUIESCENCE_TIMEOUT] after [tsc]. *)
Definition Watch : Type := ThreadState.State * option Z * bool.

Definition backoff_elapsed (tsc : Z) (last : option Z) : bool :=
  match last with
  | Some tsc2 => TSC_QUIESCENCE_TIMEOUT <=? wrap64 (tsc2 - tsc)
  | None => false
  end.

Definition watch_step (tsc : Z) (s : Watch) (e : Event) : Watch :=
  let '(cur, last, ok) := s in
  match e with
  | Logged (SchedulerStateChange _ to) => (to, last, ok)
  | AalTick t => (cur, Some t, ok)
  | PoolPause _ =>
      (cur, last,
       ok && ThreadState.eqb cur ThreadState.NotInLD
       && backoff_elapsed tsc last)
  | _ => s
  end.

Definition watch (tsc : Z) (start : ThreadState.State) (l : list Event)
  : Watch := fold_left (watch_step tsc) l (start, None, true).

Definition parks_in_order (tsc : Z) (start : ThreadState.State)
    (l : list Event) : bool := snd (watch tsc start l).

Definition state_read (tsc : Z) (start : ThreadState.State)
    (l : list Event) : ThreadState.State := fst (fst (watch tsc start l)).

(** The trace has grown from [base] by events that are in order, and the
    state read off them is the state of the worker. *)
Definition watched (base : list Event) (tsc : Z) (start : ThreadState.State)
    (w : World P) : Prop :=
  exists rest last,
    trace w = base ++ rest
    /\ watch tsc start rest = (state (thr w), last, true).

End Expectations.

(** The cowns a trace deallocates, in order. *)
Definition deallocated (l : list Event) : list ptr :=
  flat_map (fun e => match e with CownDealloc c => [c] | _ => [] end) l.

Definition with_events {P} (l : list Event) (w : World P) : World P :=
  mkWorld (thr w) (cores w) (heap w) (env w) (trace w ++ l).

(** * What the further properties are stated with *)

(** An answer of the pool to [next_state]. *)
Definition is_pool_answer (e : Event) : bool :=
  match e with
  | PoolNextState _ _ => true
  | _ => false
  end.

(** The count of the registry of the worker's core is right: [total_cowns]
    is the number of cowns linked in it, as a [size_t]. *)
Definition registry_counted {P} (w : World P) : Prop :=
  total_cowns (cores w (core (thr w)))
  = wrap64 (Z.of_nat (length (cowns (cores w (core (thr w)))))).

(** The [send_epoch] lines of a trace, in order: the values [enter_prescan]
    and [enter_scan] have given the field. *)
Definition send_epochs (l : list Event) : list EpochMark :=
  flat_map (fun e => match e with
                     | Logged (SendEpoch1 x) | Logged (SendEpoch2 x) => [x]
                     | _ => []
                     end) l.

(** The scans a trace starts: its [send_epoch (2)] lines, which only
    [enter_scan] writes. *)
Definition scan_lines (l : list Event) : nat :=
  length (filter (fun e => match e with
                           | Logged (SendEpoch2 _) => true
                           | _ => false
                           end) l).

(** Since the trace had [n] scans, the worker has scheduled an unscanned cown
    and not started a scan, or it has started one. *)
Definition unscanned_since {P} (n : nat) (w : World P) : Prop :=
  (scheduled_unscanned_cown (thr w) = true /\ scan_lines (trace w) = n)
  \/ (n < scan_lines (trace w))%nat.

(** * A small runtime to run the model on *)

Module Demo.

(** What lies outside the worker here: the global epoch and a clock. *)
Record Outside := mkOutside {
  global_epoch : Z;
  clock : Z
}.

(** A thread pool that answers [next_state] from a fixed table [script] and
    never finds anyone to wake; it has stopped the worker when [stop] says
    so; the teardown barrier leaves everything as it is; an epoch is outdated
    two advances later; every timestamp is 600000 cycles after the last;
    behaviours always ask to be rescheduled; a queue has nothing old when it
    is empty. *)
Definition runtime_until (stop : Outside -> bool)
    (fair_flag detect_leaks : bool)
    (script : ThreadState.State -> ThreadState.State) : Runtime Outside :=
  {| fair := fun _ => fair_flag;
     get_detect_leaks := fun _ => detect_leaks;
     should_scan := fun _ => false;
     no_inflight_messages := fun _ => true;
     next_state := fun s o => (script s, o);
     unpause := fun o => (false, o);
     pause := fun o => (false, o);
     stopped := stop;
     teardown_barrier := fun _ cs h o => (cs, h, o);
     tick := fun o => (clock o, mkOutside (global_epoch o) (clock o + 600000));
     run := fun _ _ o => (true, o);
     nothing_old := fun _ l _ => match l with [] => true | _ => false end;
     is_outdated := fun e o => e + 2 <=? global_epoch o;
     advance := fun o => mkOutside (global_epoch o + 1) (clock o);
     NO_EPOCH_SET := 2 ^ 64 - 1 |}.

(** The same, with a pool that never stops the worker. *)
Definition runtime : bool -> bool
    -> (ThreadState.State -> ThreadState.State) -> Runtime Outside :=
  runtime_until (fun _ => false).

(** The coordinator leaves every worker where it is. *)
Definition idle (s : ThreadState.State) : ThreadState.State := s.

(** The coordinator sends an idle worker straight into [Scan]. *)
Definition scan_now (s : ThreadState.State) : ThreadState.State :=
  match s with
  | ThreadState.NotInLD => ThreadState.Scan
  | _ => s
  end.

Definition outside : Outside := mkOutside 10 0.

(** Cowns 16 and 24 belong to core 0; 32 and 64 are the token cowns of cores
    0 and 1; 48 is awake and belongs to nobody yet. *)
Definition heap (p : ptr) : Cown :=
  if p =? 16 then mkCown (Some 0%nat) EPOCH_A 0 (2 ^ 64 - 1) false
  else if p =? 24 then mkCown (Some 0%nat) EPOCH_A 1 9 false
  else if p =? 32 then mkCown (Some 0%nat) EPOCH_NONE 1 0 true
  else if p =? 64 then mkCown (Some 1%nat) EPOCH_NONE 1 0 true
  else mkCown None EPOCH_NONE 0 0 false.

(** Two cores in a ring.  Core 0 has cown 16 and its own token (32 with the
    thread bit) queued and cowns 16 and 24 registered; core 1 has cown 48
    queued. *)
Definition cores (c : CoreId) : Core :=
  match c with
  | O => mkCore [16; 33] [16; 24] 2 1 0 0 0 32 1%nat
  | _ => mkCore [48] [] 0 0 0 0 0 64 0%nat
  end.

(** The worker of core 0, somewhere in its life. *)
Definition worker (st : ThreadState.State) (tokens : Z) (steal : bool)
  : SchedulerThread :=
  {| systematic_id := 7; core := 0%nat; victim := 1%nat; running := true;
     n_ld_tokens := tokens; should_steal_for_fairness := steal;
     scheduled_unscanned_cown := false;
     send_epoch := EPOCH_A; prev_epoch := EPOCH_B; state := st |}.

Definition world (st : ThreadState.State) (tokens : Z) (steal : bool)
  : World Outside := mkWorld (worker st tokens steal) cores heap outside [].

(** The worker of core 0 as [run_inner] finds it. *)
Definition fresh : World Outside :=
  mkWorld (new_thread 7 0%nat) cores heap outside [].

(** The coordinator takes a worker through the start of an LD round. *)
Definition ld_round (s : ThreadState.State) : ThreadState.State :=
  match s with
  | ThreadState.NotInLD => ThreadState.PreScan
  | ThreadState.PreScan => ThreadState.Scan
  | ThreadState.Scan => ThreadState.AllInScan
  | _ => s
  end.

(** The coordinator takes a worker out of [PreScan] and into [Scan] by way
    of [WantLD]. *)
Definition out_of_order (s : ThreadState.State) : ThreadState.State :=
  match s with
  | ThreadState.NotInLD => ThreadState.Scan
  | ThreadState.Scan => ThreadState.PreScan
  | ThreadState.PreScan => ThreadState.WantLD
  | ThreadState.WantLD => ThreadState.Scan
  | _ => s
  end.

Definition fair_idle : Runtime Outside := runtime true false idle.

Definition fair_ld_round : Runtime Outside := runtime true false ld_round.

(** The same worker after the prologue of [run_inner]. *)
Definition started : World Outside := world_of (run_inner_prologue fresh).

(** The local [cown] and the world after [n] turns of the loop. *)
Fixpoint after_turns (rt : Runtime Outside) (n : nat)
  : ptr * World Outside :=
  match n with
  | O => (nullptr, started)
  | S k =>
      let (c, w) := after_turns rt k in
      match turn rt 3 c w with
      | Done (Some c') w' => (c', w')
      | _ => (c, w)
      end
  end.

End Demo.


(** * Properties *)

(** Run the monad on a world. *)
Ltac mrun :=
  cbn [bind gets ret modify assert_ out_of_fuel when negb andb orb
       thr cores heap env trace
       with_thr with_cores with_heap with_env with_event with_events].

Lemma ThreadState_eqb_spec a b : reflect (a = b) (ThreadState.eqb a b).
Proof. destruct a, b; constructor; congruence. Qed.

Lemma ThreadState_eqb_refl a : ThreadState.eqb a a = true.
Proof. destruct a; reflexivity. Qed.

Lemma wrap64_range x : 0 <= wrap64 x < 2 ^ 64.
Proof. unfold wrap64. apply Z.mod_pos_bound. lia. Qed.

Lemma wrap64_small x : 0 <= x < 2 ^ 64 -> wrap64 x = x.
Proof. unfold wrap64. intros. now apply Z.mod_small. Qed.

Lemma wrap64_succ_add x k : wrap64 (wrap64 (x + 1) + k) = wrap64 (x + (k + 1)).
Proof.
  unfold wrap64. rewrite Zplus_mod_idemp_l. f_equal. lia.
Qed.

Lemma with_events_nil {P} (w : World P) : with_events [] w = w.
Proof. destruct w. unfold with_events. cbn. now rewrite app_nil_r. Qed.

Lemma with_events_app {P} (l1 l2 : list Event) (w : World P) :
  with_events l2 (with_events l1 w) = with_events (l1 ++ l2) w.
Proof. unfold with_events. cbn. now rewrite app_assoc. Qed.

Section Properties.

Context {P : Type} (R : Runtime P).

Ltac unfold_prims :=
  unfold this, update, core_get, core_upd, deref, emit, log, stats, yield,
    q_enqueue, q_enqueue_front, q_nothing_old, pool_fair,
    pool_get_detect_leaks, pool_should_scan, pool_no_inflight_messages,
    pool_unpause, pool_pause, pool_next_state, aal_tick, epoch_is_outdated,
    epoch_advance, anything, no_ld_assert.

(** ** Stub collection *)

Lemma with_event_events (e : Event) (l : list Event) (w : World P) :
  with_events l (with_event e w) = with_events (e :: l) w.
Proof. unfold with_events, with_event. cbn. now rewrite <- app_assoc. Qed.

Lemma stub_walk_spec (dt : bool) (chain : list ptr) :
  forall (removed_count count : Z) (w : World P),
    0 <= removed_count < 2 ^ 64 ->
    0 <= count < 2 ^ 64 ->
    stub_walk R dt chain removed_count count w
    = Done (retained R dt (heap w) (env w) chain,
            wrap64 (removed_count
                    + Z.of_nat (length (freed R dt (heap w) (env w) chain))),
            wrap64 (count + Z.of_nat (length chain)))
           (with_events (walk_events R dt (heap w) (env w) chain) w).
Proof.
  induction chain as [|c rest IH]; intros rc cnt w Hrc Hcnt.
  - cbn. rewrite !Z.add_0_r, !wrap64_small, with_events_nil by assumption.
    reflexivity.
  - pose proof (wrap64_range (rc + 1)) as Hrc'.
    pose proof (wrap64_range (cnt + 1)) as Hcnt'.
    assert (Hfate : exists f, fate R dt (heap w) (env w) c = f) by eauto.
    destruct Hfate as [f Hf].
    cbn [stub_walk retained freed walk_events filter flat_map].
    rewrite Hf.
    fold (retained R dt (heap w) (env w) rest).
    fold (freed R dt (heap w) (env w) rest).
    fold (walk_events R dt (heap w) (env w) rest).
    revert Hf. unfold fate, outdated.
    unfold deref, log, emit, pool_get_detect_leaks, epoch_is_outdated.
    cbn [bind gets modify ret].
    destruct (weak_count (heap w c) =? 0); cbn [orb negb andb];
      [ | destruct dt; cbn [orb negb andb bind modify gets];
          [ destruct (get_detect_leaks R (env w)) eqn:Hl;
            cbn [env with_event]; rewrite ?Hl | ] ];
      try (destruct (epoch_when_popped (heap w c) =? NO_EPOCH_SET R);
           cbn [orb ret bind modify gets heap env with_event];
           [ | destruct (is_outdated R (epoch_when_popped (heap w c)) (env w)) ]);
      intros <-; cbn [bind modify gets ret]; rewrite IH by assumption;
      cbn [is_retained is_freed heap env with_event app length bind ret];
      rewrite ?with_event_events, ?wrap64_succ_add, ?Nat2Z.inj_succ,
        ?andb_false_r;
      unfold Z.succ; cbn [app]; reflexivity.
Qed.

Lemma upd_core_same i f (cs : CoreId -> Core) : upd_core i f cs i = f (cs i).
Proof. unfold upd_core. now rewrite Nat.eqb_refl. Qed.

Lemma upd_core_other i j f (cs : CoreId -> Core) :
  j <> i -> upd_core i f cs j = cs j.
Proof.
  intros H. unfold upd_core. now apply Nat.eqb_neq in H as ->.
Qed.

Lemma wrap64_sub_r x y : wrap64 (x - wrap64 y) = wrap64 (x - y).
Proof. unfold wrap64. apply Zminus_mod_idemp_r. Qed.

Lemma deallocated_walk_events (dt : bool) h p (l : list ptr) :
  deallocated (walk_events R dt h p l) = freed R dt h p l.
Proof.
  induction l as [|c l IH]; [reflexivity|].
  cbn [walk_events flat_map freed filter].
  unfold deallocated in *. rewrite flat_map_app, flat_map_app.
  fold (walk_events R dt h p l). rewrite IH.
  destruct (dt && negb (weak_count (h c) =? 0));
    destruct (is_freed (fate R dt h p c)); reflexivity.
Qed.

Lemma fate_no_teardown h p c :
  fate R false h p c = if collectable R h p c then Freed else Retained.
Proof.
  unfold fate, collectable.
  destruct (weak_count (h c) =? 0), (outdated R h p c); reflexivity.
Qed.

Lemma retained_no_teardown h p (l : list ptr) :
  retained R false h p l = filter (fun c => negb (collectable R h p c)) l.
Proof.
  unfold retained. apply filter_ext. intros c. rewrite fate_no_teardown.
  destruct (collectable R h p c); reflexivity.
Qed.

Lemma freed_no_teardown h p (l : list ptr) :
  freed R false h p l = filter (collectable R h p) l.
Proof.
  unfold freed. apply filter_ext. intros c. rewrite fate_no_teardown.
  destruct (collectable R h p c); reflexivity.
Qed.

Lemma walk_events_no_teardown h p (l : list ptr) :
  walk_events R false h p l = map CownDealloc (filter (collectable R h p) l).
Proof.
  induction l as [|c l IH]; [reflexivity|].
  unfold walk_events in *. cbn [flat_map filter]. rewrite IH, fate_no_teardown.
  destruct (collectable R h p c); reflexivity.
Qed.

(** C8.  In the LD states [ReallyDone_Confirm] and [Finished] stub collection
    is inhibited: [collect_cown_stubs], in either mode, returns at once and
    leaves the whole world as it was, so the registry of the core and its
    [free_cowns] and [total_cowns] are unchanged. *)
Theorem collect_cown_stubs_inhibited (during_teardown : bool) (w : World P) :
  state (thr w) = ThreadState.ReallyDone_Confirm
  \/ state (thr w) = ThreadState.Finished ->
  collect_cown_stubs R during_teardown w = Done tt w.
Proof.
  intros [H|H]; unfold collect_cown_stubs, this; cbn [bind gets];
    rewrite H; reflexivity.
Qed.

(** C1, as amended.  Outside the LD states [ReallyDone_Confirm] and
    [Finished], and with [total_cowns] equal to the size of the registry as
    the function asserts, a run of [collect_cown_stubs] that is not the
    teardown one deallocates exactly the registered cowns whose weak count is
    zero and whose [epoch_when_popped] is the sentinel or outdated, in chain
    order; all other cowns are put back in the registry in their order; and
    [free_cowns] and [total_cowns] both drop by the number of deallocated
    cowns.  Nothing else changes. *)
Theorem collect_cown_stubs_collects (w : World P) :
  let me := core (thr w) in
  let registry := cowns (cores w me) in
  let gone := filter (collectable R (heap w) (env w)) registry in
  state (thr w) <> ThreadState.ReallyDone_Confirm ->
  state (thr w) <> ThreadState.Finished ->
  total_cowns (cores w me) = wrap64 (Z.of_nat (length registry)) ->
  exists w',
    collect_cown_stubs R false w = Done tt w'
    /\ cowns (cores w' me)
       = filter (fun c => negb (collectable R (heap w) (env w) c)) registry
    /\ trace w' = trace w ++ map CownDealloc gone
    /\ free_cowns (cores w' me)
       = wrap64 (free_cowns (cores w me) - Z.of_nat (length gone))
    /\ total_cowns (cores w' me)
       = wrap64 (total_cowns (cores w me) - Z.of_nat (length gone))
    /\ q (cores w' me) = q (cores w me)
    /\ (forall c, c <> me -> cores w' c = cores w c)
    /\ thr w' = thr w /\ heap w' = heap w /\ env w' = env w.
Proof.
  intros me registry gone Hrc Hfin Htotal.
  unfold collect_cown_stubs, this, core_drain, core_get, core_upd,
    core_add_cowns.
  cbn [bind gets modify ret].
  assert (Hgo : forall (A : Type) (a b : A),
             match state (thr w) with
             | ThreadState.ReallyDone_Confirm | ThreadState.Finished => a
             | _ => b
             end = b)
    by (intros; destruct (state (thr w)); congruence).
  rewrite Hgo. cbn [bind gets modify ret thr with_cores].
  rewrite stub_walk_spec by lia.
  cbn [heap env with_cores thr cores with_events].
  fold me. change (cowns (cores w me)) with registry.
  rewrite retained_no_teardown, freed_no_teardown, walk_events_no_teardown.
  fold gone.
  set (kept := filter _ registry).
  unfold when, core_upd, assert_.
  destruct kept as [|k kept'] eqn:Hk;
    cbn [negb bind modify gets ret with_cores with_events cores];
    rewrite ?upd_core_same;
    cbn [total_cowns set_cowns set_free_cowns set_total_cowns];
    rewrite Htotal, Z.add_0_l, Z.eqb_refl;
    (eexists; split; [reflexivity|]);
    cbn [cores thr heap env trace with_cores with_events];
    rewrite ?upd_core_same;
    cbn [cowns q total_cowns free_cowns set_cowns set_free_cowns
           set_total_cowns];
    rewrite ?wrap64_sub_r, ?app_nil_r, <- ?Htotal;
    repeat split; try reflexivity;
    intros c Hc; rewrite !upd_core_other by assumption; reflexivity.
Qed.

(** C9.  The teardown walk over a chain, as [collect_cown_stubs<true>] starts
    it.  With leak detection on, the cowns with a non-zero weak count are all
    unlinked, none of them is deallocated, and they do not count as removed:
    what stays, what is deallocated and [removed_count] are those of the cowns
    with weak count zero.  With leak detection off the weak count plays no
    part: every cown goes through the epoch test, as one with weak count zero
    does. *)
Theorem teardown_leaking_cowns (chain : list ptr) (w : World P) :
  let old := outdated R (heap w) (env w) in
  let unreferenced := fun c => weak_count (heap w c) =? 0 in
  exists kept removed_count count new,
    stub_walk R true chain 0 0 w
    = Done (kept, removed_count, count) (with_events new w)
    /\ removed_count = wrap64 (Z.of_nat (length (deallocated new)))
    /\ if get_detect_leaks R (env w) then
         kept = filter (fun c => unreferenced c && negb (old c)) chain
         /\ deallocated new = filter (fun c => unreferenced c && old c) chain
       else
         kept = filter (fun c => negb (old c)) chain
         /\ deallocated new = filter old chain.
Proof.
  intros old unreferenced.
  do 4 eexists. split; [apply stub_walk_spec; lia|].
  rewrite deallocated_walk_events, Z.add_0_l. split; [reflexivity|].
  unfold retained, freed, fate. fold old.
  destruct (get_detect_leaks R (env w)); split; apply filter_ext; intros c;
    unfold unreferenced; destruct (weak_count (heap w c) =? 0), (old c);
    reflexivity.
Qed.
(** ** Tokens, rescheduling and the scan *)

Lemma q_dequeue_eq (c : CoreId) (w : World P) :
  q_dequeue c w
  = Done (hd nullptr (q (cores w c)))
         (match q (cores w c) with
          | [] => w
          | _ :: rest => with_cores (upd_core c (set_q rest)) w
          end).
Proof.
  unfold q_dequeue, core_get, core_upd. mrun.
  destruct (q (cores w c)); reflexivity.
Qed.

(** [schedule_fifo] of a cown that is awake: it lands at the tail of the
    local queue, and of the worker only [scheduled_unscanned_cown] may
    change. *)
Lemma schedule_fifo_awake (a : ptr) (w : World P) :
  is_sleeping (heap w a) = false ->
  exists w',
    schedule_fifo R a w = Done tt w'
    /\ cores w'
       = upd_core (core (thr w)) (fun k => set_q (q k ++ [a]) k) (cores w)
    /\ heap w' = heap w
    /\ set_scheduled_unscanned_cown false (thr w')
       = set_scheduled_unscanned_cown false (thr w).
Proof.
  intros Hawake. unfold schedule_fifo, this, deref, update, q_enqueue,
    core_upd, when, pool_unpause, stats, emit.
  mrun. rewrite Hawake.
  destruct (scanned (heap w a) (send_epoch (thr w))); mrun;
    destruct (unpause R (env w)) as [[] p]; mrun;
    eexists; (split; [reflexivity|]); mrun; auto.
Qed.

Lemma fast_steal_spec (w : World P) :
  exists w',
    fast_steal w
    = Done (if is_null (steal_target w) then None
            else Some (steal_target w)) w'
    /\ cores w' (core (thr w)) = cores w (core (thr w))
    /\ heap w' = heap w /\ env w' = env w
    /\ set_victim 0%nat (thr w') = set_victim 0%nat (thr w).
Proof.
  unfold fast_steal, steal_target, this, update, core_get. mrun.
  destruct (Nat.eqb (victim (thr w)) (core (thr w))) eqn:Hv; mrun.
  - eexists; split; [reflexivity|]; mrun; auto.
  - rewrite q_dequeue_eq. mrun.
    apply Nat.eqb_neq in Hv.
    destruct (q (cores w (victim (thr w)))) as [|s rest]; cbn [hd];
      [|destruct (is_null s)]; mrun;
      (eexists; split; [reflexivity|]); mrun;
      rewrite ?upd_core_other by congruence; auto.
Qed.

(** C4.  When [cown->run] has returned [true] and the cown is awake, as the
    code asserts, the reschedule goes by [verdict]: with
    [should_steal_for_fairness] set the cown is enqueued at the tail of the
    local queue and the slot is cleared; otherwise one pop of the local queue
    is made, and if it yields [n] the cown is enqueued at the tail and the
    worker goes on with [n]; if it yields nothing and the queue has nothing
    old, [n_ld_tokens] is reset to 0, and if moreover the pool is fair and one
    [fast_steal] succeeds the cown is enqueued at the tail and the worker goes
    on with the stolen one; in every other case the worker goes on with the
    same cown, which is not enqueued. *)
Theorem reschedule_policy (cown : ptr) (w : World P) :
  let me := core (thr w) in
  is_sleeping (heap w cown) = false ->
  exists w',
    reschedule R cown w
    = Done (match verdict R w with Requeue n => n | KeepRunning => cown end) w'
    /\ q (cores w' me)
       = (if should_steal_for_fairness (thr w) then q (cores w me) ++ [cown]
          else match verdict R w with
               | Requeue _ => tl (q (cores w me)) ++ [cown]
               | KeepRunning => tl (q (cores w me))
               end)
    /\ n_ld_tokens (thr w')
       = (if negb (should_steal_for_fairness (thr w))
             && is_null (local_pop w) && queue_looks_drained R w
          then 0 else n_ld_tokens (thr w))
    /\ should_steal_for_fairness (thr w') = should_steal_for_fairness (thr w).
Proof.
  intros me Hawake.
  unfold reschedule, verdict, local_pop, queue_looks_drained.
  unfold q_nothing_old, this, deref, update, pool_fair.
  mrun. fold me.
  destruct (should_steal_for_fairness (thr w)) eqn:Hssf; mrun.
  - destruct (schedule_fifo_awake cown w Hawake) as (w' & -> & Hc & Hh & Ht).
    exists w'. rewrite Hc. fold me. rewrite upd_core_same.
    apply (f_equal n_ld_tokens) in Ht as Hn.
    apply (f_equal should_steal_for_fairness) in Ht as Hs.
    cbn in Hn, Hs. rewrite Hn, Hs, Hssf. auto.
  - rewrite Hawake. mrun. rewrite q_dequeue_eq. fold me. mrun.
    set (w1 := match q (cores w me) with
               | [] => w
               | _ :: rest => with_cores (upd_core me (set_q rest)) w
               end).
    assert (Hthr : thr w1 = thr w) by (subst w1; destruct (q (cores w me)); reflexivity).
    assert (Hheap : heap w1 = heap w) by (subst w1; destruct (q (cores w me)); reflexivity).
    assert (Henv : env w1 = env w) by (subst w1; destruct (q (cores w me)); reflexivity).
    assert (Hq : q (cores w1 me) = tl (q (cores w me))).
    { subst w1. destruct (q (cores w me)) eqn:E; mrun;
        rewrite ?upd_core_same, ?E; reflexivity. }
    assert (Hother : forall c, c <> me -> cores w1 c = cores w c).
    { intros c Hc. subst w1. destruct (q (cores w me)); mrun;
        rewrite ?upd_core_other by assumption; reflexivity. }
    clearbody w1.
    destruct (is_null (hd nullptr (q (cores w me)))) eqn:Hpop; mrun.
    + rewrite Hq, Henv.
      destruct (nothing_old R me (tl (q (cores w me))) (env w)); mrun.
      2:{ exists w1. rewrite Hq, Hthr, Hssf. auto. }
      rewrite Henv.
      assert (Htgt : steal_target (with_thr (set_n_ld_tokens 0) w1)
                     = steal_target w).
      { unfold steal_target. mrun. cbn [victim core set_n_ld_tokens].
        rewrite Hthr. fold me.
        destruct (Nat.eqb (victim (thr w)) me) eqn:Hv; [reflexivity|].
        apply Nat.eqb_neq in Hv. now rewrite Hother. }
      destruct (fair R (env w)); mrun.
      2:{ eexists; split; [reflexivity|]. mrun. rewrite Hq, Hthr.
          cbn [n_ld_tokens should_steal_for_fairness set_n_ld_tokens]. auto. }
      destruct (fast_steal_spec (with_thr (set_n_ld_tokens 0) w1))
        as (w2 & -> & Hc2 & Hh2 & He2 & Ht2).
      rewrite Htgt.
      apply (f_equal n_ld_tokens) in Ht2 as Hn2.
      apply (f_equal should_steal_for_fairness) in Ht2 as Hs2.
      apply (f_equal core) in Ht2 as Hcore2.
      cbn in Hn2, Hs2, Hcore2, Hc2, Hh2. rewrite Hthr in *. fold me in Hc2, Hcore2.
      destruct (is_null (steal_target w)); mrun.
      * exists w2. rewrite Hc2, Hq, Hn2, Hs2. auto.
      * destruct (schedule_fifo_awake cown w2) as (w3 & -> & Hc3 & Hh3 & Ht3).
        { now rewrite Hh2, Hheap. }
        exists w3. apply (f_equal n_ld_tokens) in Ht3 as Hn3.
        apply (f_equal should_steal_for_fairness) in Ht3 as Hs3.
        cbn in Hn3, Hs3. rewrite Hc3, Hcore2, upd_core_same, Hn3, Hs3, Hn2, Hs2.
        cbn [q set_q]. rewrite Hc2, Hq. auto.
    + destruct (schedule_fifo_awake cown w1) as (w3 & -> & Hc3 & Hh3 & Ht3).
      { now rewrite Hheap. }
      exists w3. apply (f_equal n_ld_tokens) in Ht3 as Hn3.
      apply (f_equal should_steal_for_fairness) in Ht3 as Hs3.
      cbn in Hn3, Hs3. rewrite Hc3, Hthr in *. fold me. rewrite upd_core_same, Hn3, Hs3.
      cbn [q set_q]. rewrite Hq. auto.
Qed.

Lemma dec_n_ld_tokens_ok (w : World P) :
  n_ld_tokens (thr w) = 1 \/ n_ld_tokens (thr w) = 2 ->
  dec_n_ld_tokens w
  = Done tt (with_thr (set_n_ld_tokens (n_ld_tokens (thr w) - 1))
                      (with_event (Logged ReachedLDToken) w)).
Proof.
  unfold dec_n_ld_tokens, this, log, emit, update. mrun.
  intros [H|H]; rewrite H; reflexivity.
Qed.

(** C3.  [prerun] on a value with the thread bit, whose token cown has an
    owning core, in a worker with at most two LD tokens left: it returns
    [false] and appends the value to the queue of the owning core.  If that
    core is the worker's own, [should_steal_for_fairness] becomes [true] when
    the pool is fair and stays as it was otherwise, and [n_ld_tokens] drops by
    one when it is positive; if it is another core, neither changes. *)
Theorem prerun_token (cown : ptr) (owner : CoreId) (w : World P) :
  let me := core (thr w) in
  let n := n_ld_tokens (thr w) in
  has_thread_bit cown = true ->
  owning_core (heap w (clear_thread_bit cown)) = Some owner ->
  n <= 2 ->
  exists w',
    prerun R cown w = Done false w'
    /\ should_steal_for_fairness (thr w')
       = (if Nat.eqb owner me
          then if fair R (env w) then true
               else should_steal_for_fairness (thr w)
          else should_steal_for_fairness (thr w))
    /\ n_ld_tokens (thr w')
       = (if Nat.eqb owner me && (0 <? n) then n - 1 else n)
    /\ q (cores w' owner) = q (cores w owner) ++ [cown]
    /\ (forall c, c <> owner -> cores w' c = cores w c)
    /\ heap w' = heap w /\ env w' = env w.
Proof.
  intros me n Hbit Howner Hn.
  unfold prerun. rewrite Hbit.
  unfold deref, this, pool_fair, update, q_enqueue, core_upd, when.
  mrun. rewrite Howner. fold me. mrun.
  assert (Hfin : forall w1 : World P,
             exists w',
               Done false
                 (with_cores
                    (upd_core owner (fun k => set_q (q k ++ [cown]) k)) w1)
               = Done false w'
               /\ thr w' = thr w1
               /\ q (cores w' owner) = q (cores w1 owner) ++ [cown]
               /\ (forall c, c <> owner -> cores w' c = cores w1 c)
               /\ heap w' = heap w1 /\ env w' = env w1).
  { intros w1. eexists; split; [reflexivity|]. mrun. rewrite upd_core_same.
    repeat split; try reflexivity. intros c Hc. now rewrite upd_core_other. }
  destruct (Nat.eqb owner me); mrun.
  - set (w1 := if fair R (env w)
               then with_thr (set_should_steal_for_fairness true) w else w).
    assert (Hw1 : (if fair R (env w)
                   then modify (with_thr (set_should_steal_for_fairness true))
                   else ret tt) w = Done tt w1)
      by (subst w1; destruct (fair R (env w)); reflexivity).
    rewrite Hw1.
    assert (Hn1 : n_ld_tokens (thr w1) = n)
      by (subst w1; destruct (fair R (env w)); reflexivity).
    assert (Hs1 : should_steal_for_fairness (thr w1)
                  = if fair R (env w) then true
                    else should_steal_for_fairness (thr w))
      by (subst w1; destruct (fair R (env w)); reflexivity).
    assert (Hrest : cores w1 = cores w /\ heap w1 = heap w /\ env w1 = env w)
      by (subst w1; destruct (fair R (env w)); auto).
    destruct Hrest as (Hc1 & Hh1 & He1). clearbody w1.
    rewrite Hn1. destruct (0 <? n) eqn:Hpos.
    + apply Z.ltb_lt in Hpos. rewrite dec_n_ld_tokens_ok by lia. mrun.
      destruct (Hfin (with_thr (set_n_ld_tokens (n_ld_tokens (thr w1) - 1))
                               (with_event (Logged ReachedLDToken) w1)))
        as (w' & -> & Ht & Hq & Ho & Hh & He).
      exists w'. rewrite Ht, Hq, Hh, He. mrun.
      cbn [n_ld_tokens should_steal_for_fairness set_n_ld_tokens].
      rewrite Hs1, Hn1, Hc1, Hh1, He1. repeat split; try reflexivity.
      intros c Hc. rewrite Ho by assumption. mrun. now rewrite Hc1.
    + mrun. destruct (Hfin w1) as (w' & -> & Ht & Hq & Ho & Hh & He).
      exists w'. rewrite Ht, Hq, Hh, He, Hs1, Hn1, Hc1, Hh1, He1.
      repeat split; try reflexivity.
      intros c Hc. rewrite Ho by assumption. now rewrite Hc1.
  - destruct (Hfin w) as (w' & -> & Ht & Hq & Ho & Hh & He).
    exists w'. rewrite Ht, Hq, Hh, He. auto 10.
Qed.

(** C6.  [enter_scan] sets [send_epoch] to [EPOCH_A] if [prev_epoch] is
    [EPOCH_B] and to [EPOCH_B] otherwise, calls [scan] on the core, sets
    [n_ld_tokens] to 2 and clears [scheduled_unscanned_cown].  And this is
    what a step of the LD protocol into [Scan] ends with, from [PreScan] or
    from any other state; coming from another state, [prev_epoch] has first
    been set to the old [send_epoch] by [enter_prescan]. *)
Theorem entering_scan :
  (forall w : World P,
      exists w',
        enter_scan w = Done tt w'
        /\ send_epoch (thr w') = flip_epoch (prev_epoch (thr w))
        /\ prev_epoch (thr w') = prev_epoch (thr w)
        /\ n_ld_tokens (thr w') = 2
        /\ scheduled_unscanned_cown (thr w') = false
        /\ trace w' = trace w ++ [Logged (SendEpoch2 (send_epoch (thr w')));
                                  CoreScan (core (thr w))])
  /\ (forall (fuel : nat) (w : World P),
        let sprev := state (thr w) in
        fst (next_state R sprev (env w)) = ThreadState.Scan ->
        sprev <> ThreadState.Scan ->
        exists w',
          ld_protocol_loop R (S fuel) w = Done tt w'
          /\ state (thr w') = ThreadState.Scan
          /\ prev_epoch (thr w')
             = (if ThreadState.eqb sprev ThreadState.PreScan
                then prev_epoch (thr w) else send_epoch (thr w))
          /\ send_epoch (thr w') = flip_epoch (prev_epoch (thr w'))
          /\ n_ld_tokens (thr w') = 2
          /\ scheduled_unscanned_cown (thr w') = false
          /\ exists before,
              trace w'
              = trace w ++ before
                ++ [Logged (SendEpoch2 (send_epoch (thr w')));
                    CoreScan (core (thr w))]).
Proof.
  split.
  - intros w. unfold enter_scan, this, update, log, emit. mrun.
    eexists; split; [reflexivity|]. mrun.
    rewrite <- app_assoc. auto 10.
  - intros fuel w sprev Hnext Hnot.
    cbn [ld_protocol_loop]. unfold this, yield, pool_next_state. mrun.
    fold sprev. destruct (next_state R sprev (env w)) as [snext p] eqn:E.
    cbn [fst] in Hnext. subst snext. mrun.
    rewrite andb_false_r.
    unfold ld_state_change, ld_transition_actions, enter_prescan, enter_scan,
      this, update, log, emit, yield.
    subst sprev.
    destruct (state (thr w)) eqn:Hs; try congruence; mrun;
      cbn [state set_state ThreadState.eqb]; mrun;
      (eexists; split; [reflexivity|]); mrun;
      cbn [state send_epoch prev_epoch n_ld_tokens scheduled_unscanned_cown
           core set_state set_send_epoch set_prev_epoch set_n_ld_tokens
           set_scheduled_unscanned_cown];
      (repeat split; try reflexivity);
      rewrite <- !app_assoc; cbn [app];
      first [ exists [PoolNextState ThreadState.PreScan ThreadState.Scan;
                      Logged (SchedulerStateChange ThreadState.PreScan
                                                   ThreadState.Scan)];
              rewrite ?Hs; reflexivity
            | eexists [_; _; _]; reflexivity ].
Qed.
(** ** The main loop, turn by turn *)

Lemma triple_bind {A B} (I : World P -> Prop) (m : M P A) (f : A -> M P B) Q Q' bad :
  triple I m Q bad ->
  (forall a, Q a -> triple I (f a) Q' bad) ->
  triple I (x <- m ;; f x) Q' bad.
Proof.
  intros Hm Hf w Hw. specialize (Hm w Hw). cbn [bind].
  destruct (m w) as [a w'|e w'|w']; auto.
  destruct Hm as [Hw' Ha]. exact (Hf a Ha w' Hw').
Qed.

Lemma triple_ret {A} (I : World P -> Prop) (a : A) (Q : A -> Prop) bad :
  Q a -> triple I (ret a) Q bad.
Proof. intros Ha w Hw. cbn. auto. Qed.

Notation "'keeps' m" := (@triple P _ worker_inv m anything no_ld_assert)
  (at level 10, m at level 9).

Lemma epoch_walk_snoc start l e :
  epoch_walk start (l ++ [e]) = epoch_step (epoch_walk start l) e.
Proof. unfold epoch_walk. now rewrite fold_left_app. Qed.

Lemma forallb_snoc {A} (f : A -> bool) l x :
  forallb f (l ++ [x]) = forallb f l && f x.
Proof. rewrite forallb_app. cbn. now rewrite andb_true_r. Qed.

Ltac leaf :=
  let w := fresh "w" in
  let H := fresh "H" in
  intros w H;
  unfold_prims;
  mrun;
  repeat match goal with
         | |- context [let (_, _) := ?x in _] => destruct x
         | |- context [if ?b then _ else _] => destruct b
         end;
  mrun;
  try (split; [|exact I || discriminate]);
  destruct H as [Ht Hr Hw Hf];
  constructor; mrun;
  rewrite ?forallb_snoc, ?epoch_walk_snoc, ?Hr, ?Hw;
  cbn; auto.

Create HintDb triple_db.

Ltac triple_step leaf_tac :=
  match goal with
  | |- triple _ _ _ _ => solve [eauto with triple_db]
  | |- triple _ (bind _ _) _ _ =>
      eapply triple_bind with (Q := anything); [|intros ? _]
  | |- triple _ (ret _) _ _ => apply triple_ret; exact I
  | |- triple _ (when ?b _) _ _ => unfold when
  | |- triple _ (if ?b then _ else _) _ _ => destruct b
  | |- triple _ (match ?x with _ => _ end) _ _ => destruct x
  | |- triple _ (let '(_, _) := ?x in _) _ _ => destruct x
  | |- triple _ _ _ _ => solve [leaf_tac]
  end.

Ltac keeps_auto := repeat (triple_step leaf).

Lemma keeps_q_dequeue c : keeps (q_dequeue c).
Proof. unfold q_dequeue. keeps_auto. Qed.

Lemma keeps_schedule_fifo a : keeps (schedule_fifo R a).
Proof. unfold schedule_fifo. keeps_auto. Qed.

Lemma keeps_schedule_lifo c a : keeps (schedule_lifo R c a).
Proof. unfold schedule_lifo. keeps_auto. Qed.

Lemma keeps_stop : keeps stop.
Proof. unfold stop. keeps_auto. Qed.

Lemma keeps_fast_steal : keeps fast_steal.
Proof. unfold fast_steal. pose proof keeps_q_dequeue. keeps_auto. Qed.

Lemma keeps_ld_state_change s : keeps (ld_state_change s).
Proof. unfold ld_state_change. keeps_auto. Qed.

Lemma keeps_want_ld : keeps want_ld.
Proof. unfold want_ld. pose proof keeps_ld_state_change. keeps_auto. Qed.


#[local] Hint Resolve keeps_q_dequeue keeps_schedule_fifo keeps_schedule_lifo
  keeps_fast_steal keeps_ld_state_change keeps_want_ld : triple_db.

(** The only call of [dec_n_ld_tokens], with its guard. *)
Lemma keeps_guarded_dec :
  keeps (n <- this n_ld_tokens ;; when (0 <? n) dec_n_ld_tokens).
Proof.
  intros w [Ht Hr Hw Hf]. unfold dec_n_ld_tokens, when. unfold_prims. mrun.
  destruct Ht as [Hn|[Hn|Hn]]; rewrite Hn; cbn [Z.ltb Z.compare]; mrun;
    rewrite ?Hn; cbn [Z.eqb Pos.eqb orb]; mrun;
    (split; [|exact I]); constructor; mrun;
    rewrite ?forallb_snoc, ?epoch_walk_snoc, ?Hr, ?Hw; cbn; auto.
Qed.

#[local] Hint Resolve keeps_guarded_dec : triple_db.

(** [prerun] answers [true] only for a value without the thread bit. *)
Lemma keeps_prerun cown :
  triple worker_inv (prerun R cown)
         (fun real => real = true -> has_thread_bit cown = false)
         no_ld_assert.
Proof.
  unfold prerun. destruct (has_thread_bit cown).
  - eapply triple_bind with (Q := anything); [keeps_auto|intros u _].
    eapply triple_bind with (Q := anything); [keeps_auto|intros me _].
    destruct (owning_core u).
    + eapply triple_bind with (Q := anything); [keeps_auto|intros ? _].
      eapply triple_bind with (Q := anything); [keeps_auto|intros ? _].
      apply triple_ret. discriminate.
    + intros w Hw. split; [assumption|discriminate].
  - eapply triple_bind with (Q := anything); [keeps_auto|intros c _].
    eapply triple_bind with (Q := anything); [keeps_auto|intros ? _].
    now apply triple_ret.
Qed.

Lemma keeps_enter_prescan : keeps enter_prescan.
Proof.
  intros w [Ht Hr Hw Hf]. unfold enter_prescan. unfold_prims. mrun.
  split; [|exact I]. constructor; mrun;
    cbn [n_ld_tokens send_epoch prev_epoch set_send_epoch set_prev_epoch];
    rewrite ?forallb_snoc, ?epoch_walk_snoc, ?Hr, ?Hw; auto.
  cbn [epoch_step]. destruct (send_epoch (thr w)); reflexivity.
Qed.

Lemma keeps_enter_scan : keeps enter_scan.
Proof.
  intros w [Ht Hr Hw Hf]. unfold enter_scan. unfold_prims. mrun.
  split; [|exact I]. constructor; mrun;
    cbn [n_ld_tokens send_epoch prev_epoch set_send_epoch set_prev_epoch
         set_n_ld_tokens set_scheduled_unscanned_cown];
    rewrite ?forallb_snoc, ?epoch_walk_snoc, ?Hr, ?Hw; auto.
  cbn [epoch_step]. fold (flip_epoch (prev_epoch (thr w))).
  destruct Hf as [Hf|Hf]; rewrite Hf.
  - destruct (prev_epoch (thr w)); reflexivity.
  - destruct (prev_epoch (thr w)); reflexivity.
Qed.

Lemma keeps_collect_cowns : keeps collect_cowns.
Proof. unfold collect_cowns. keeps_auto. Qed.

#[local] Hint Resolve keeps_enter_prescan keeps_enter_scan
  keeps_collect_cowns : triple_db.

Lemma keeps_ld_transition_actions sprev :
  keeps (ld_transition_actions R sprev).
Proof. unfold ld_transition_actions. keeps_auto. Qed.

#[local] Hint Resolve keeps_ld_transition_actions : triple_db.

Lemma keeps_out_of_fuel {A} : keeps (@out_of_fuel P A).
Proof. intros w Hw. exact Hw. Qed.

#[local] Hint Resolve @keeps_out_of_fuel : triple_db.

Lemma keeps_ld_protocol_loop fuel : keeps (ld_protocol_loop R fuel).
Proof.
  induction fuel as [|fuel IH]; cbn [ld_protocol_loop]; keeps_auto.
Qed.

#[local] Hint Resolve keeps_ld_protocol_loop : triple_db.

Lemma keeps_ld_protocol fuel : keeps (ld_protocol R fuel).
Proof. unfold ld_protocol, ld_checkpoint_reached. keeps_auto. Qed.

#[local] Hint Resolve keeps_ld_protocol : triple_db.

Lemma keeps_steal_loop fuel : forall tsc, keeps (steal_loop R fuel tsc).
Proof.
  induction fuel as [|fuel IH]; intros tsc; cbn [steal_loop]; keeps_auto.
Qed.

#[local] Hint Resolve keeps_steal_loop : triple_db.

Lemma keeps_steal fuel : keeps (steal R fuel).
Proof. unfold steal. keeps_auto. Qed.

Lemma keeps_stub_walk dt chain :
  forall rc cnt, keeps (stub_walk R dt chain rc cnt).
Proof.
  induction chain as [|c rest IH]; intros rc cnt; cbn [stub_walk];
    keeps_auto.
Qed.

#[local] Hint Resolve keeps_steal keeps_stub_walk : triple_db.

Lemma keeps_collect_cown_stubs dt : keeps (collect_cown_stubs R dt).
Proof. unfold collect_cown_stubs, core_drain, core_add_cowns. keeps_auto. Qed.

Lemma keeps_reschedule cown : keeps (reschedule R cown).
Proof. unfold reschedule. keeps_auto. Qed.

#[local] Hint Resolve keeps_collect_cown_stubs keeps_reschedule
  : triple_db.

Lemma keeps_cown_run cown st :
  has_thread_bit cown = false -> keeps (cown_run R cown st).
Proof.
  intros Hbit w [Ht Hr Hw Hf]. unfold cown_run.
  destruct (run R cown st (env w)). split; [|exact I].
  constructor; mrun; rewrite ?forallb_snoc, ?epoch_walk_snoc, ?Hr, ?Hw;
    cbn; rewrite ?Hbit; auto.
Qed.

#[local] Hint Resolve keeps_cown_run : triple_db.

Lemma keeps_dispatch fuel cown : keeps (dispatch R fuel cown).
Proof.
  unfold dispatch.
  eapply triple_bind; [apply keeps_prerun|intros real Hreal].
  destruct real; cbn [negb]; [specialize (Hreal eq_refl)|]; keeps_auto.
Qed.

Lemma keeps_select fuel cown : keeps (select R fuel cown).
Proof. unfold select. keeps_auto. Qed.


#[local] Hint Resolve keeps_dispatch keeps_select : triple_db.

Lemma keeps_turn fuel cown : keeps (turn R fuel cown).
Proof. unfold turn. keeps_auto. Qed.

Lemma keeps_run_inner_prologue : keeps run_inner_prologue.
Proof. unfold run_inner_prologue. keeps_auto. Qed.

Lemma keeps_called_from_outside m :
  called_from_outside R m -> keeps m.
Proof. intros []; auto with triple_db. apply keeps_stop. Qed.

Lemma worker_inv_fresh id c cs h (p : P) :
  worker_inv (mkWorld (new_thread id c) cs h p []).
Proof. constructor; cbn; auto. Qed.

Lemma reachable_worker_inv cown w : reachable R cown w -> worker_inv w.
Proof.
  induction 1 as [id c cs h p w Hrun|fuel cown w nc w' _ IH Hturn
                 |m cown w w' _ IH Hm Hrun|cown w cs h p _ IH].
  - pose proof (keeps_run_inner_prologue _ (worker_inv_fresh id c cs h p))
      as Hk.
    rewrite Hrun in Hk. apply Hk.
  - pose proof (keeps_turn fuel cown w IH) as Hk.
    rewrite Hturn in Hk. apply Hk.
  - pose proof (keeps_called_from_outside m Hm w IH) as Hk.
    rewrite Hrun in Hk. apply Hk.
  - destruct IH as [Ht Hr Hw Hf]. constructor; assumption.
Qed.

Lemma turn_worker_inv fuel cown w :
  reachable R cown w ->
  worker_inv (world_of (turn R fuel cown w))
  /\ forall w', turn R fuel cown w <> Abort AssertLdTokens w'.
Proof.
  intros Hreach. apply reachable_worker_inv in Hreach.
  pose proof (keeps_turn fuel cown w Hreach) as Hk.
  destruct (turn R fuel cown w) as [a w1|e w1|w1]; cbn [world_of].
  - split; [apply Hk|discriminate].
  - split; [apply Hk|]. intros w' [= -> _]. now apply (proj2 Hk).
  - split; [assumption|discriminate].
Qed.

(** C10.  In every state the worker reaches at the head of its loop,
    [n_ld_tokens] is 0, 1 or 2, and [prerun] of any value, a token of this
    core or of another one included, does not fail the assertion of
    [dec_n_ld_tokens]; [n_ld_tokens] still is 0, 1 or 2 wherever the next
    turn of the loop gets to, and that turn does not fail the assertion
    either. *)
Theorem ld_tokens_bounded (cown : ptr) (w : World P) :
  reachable R cown w ->
  let ok := fun n => n = 0 \/ n = 1 \/ n = 2 in
  ok (n_ld_tokens (thr w))
  /\ (forall c w', prerun R c w <> Abort AssertLdTokens w')
  /\ forall fuel,
      ok (n_ld_tokens (thr (world_of (turn R fuel cown w))))
      /\ forall w', turn R fuel cown w <> Abort AssertLdTokens w'.
Proof.
  intros Hreach ok.
  pose proof (reachable_worker_inv _ _ Hreach) as Hinv.
  split; [apply (inv_tokens _ Hinv)|split].
  - intros c w' Hrun. pose proof (keeps_prerun c w Hinv) as Hk.
    rewrite Hrun in Hk. now apply (proj2 Hk).
  - intros fuel. destruct (turn_worker_inv fuel cown w Hreach) as [Hinv' Hab].
    split; [apply (inv_tokens _ Hinv')|exact Hab].
Qed.

(** C2.  A token cown is never executed.  On a value with the thread bit
    [prerun] does not return [true], and the turn is over with the slot
    empty as soon as [prerun] is; and in every trace of the worker
    [cown->run] is called only on values without the thread bit. *)
Theorem tokens_never_run :
  (forall (cown : ptr) (w : World P),
      has_thread_bit cown = true ->
      (forall w', prerun R cown w <> Done true w')
      /\ forall fuel,
          dispatch R fuel cown w = (prerun R cown ;; ret nullptr) w)
  /\ (forall (cown : ptr) (w : World P),
        reachable R cown w ->
        forallb run_untagged (trace w) = true
        /\ forall fuel,
            forallb run_untagged (trace (world_of (turn R fuel cown w)))
            = true).
Proof.
  split.
  - intros cown w Hbit.
    assert (Hfalse : forall w', prerun R cown w <> Done true w').
    { unfold prerun. rewrite Hbit. unfold deref, this. mrun.
      destruct (owning_core (heap w (clear_thread_bit cown)));
        [|discriminate].
      mrun. intros w'.
      match goal with
      | |- match ?m with _ => _ end <> _ => destruct m; discriminate
      end. }
    split; [exact Hfalse|]. intros fuel.
    unfold dispatch. cbn [bind ret].
    destruct (prerun R cown w) as [[] w1|e w1|w1]; try reflexivity.
    now destruct (Hfalse w1).
  - intros cown w Hreach. split.
    + apply (inv_runs _ (reachable_worker_inv _ _ Hreach)).
    + intros fuel. apply inv_runs, turn_worker_inv, Hreach.
Qed.

(** ** The cycle of send epochs *)

Lemma cycle_phase_snoc l e :
  cycle_phase (l ++ [e]) = phase_step (cycle_phase l) e.
Proof. unfold cycle_phase. now rewrite fold_left_app. Qed.

Ltac cycle_leaf :=
  let w := fresh "w" in
  let ph := fresh "ph" in
  let Hc := fresh "Hc" in
  let Hs := fresh "Hs" in
  let Hp := fresh "Hp" in
  let Hst := fresh "Hst" in
  intros w (ph & Hc & Hs & Hp & Hst);
  unfold_prims;
  mrun;
  repeat match goal with
         | |- context [let (_, _) := ?x in _] => destruct x
         | |- context [if ?b then _ else _] => destruct b
         end;
  mrun;
  try (split; [|exact I || (intros [])]);
  exists ph; mrun;
  rewrite ?cycle_phase_snoc, ?Hc;
  cbn; auto.

Ltac cycle_auto := repeat (triple_step cycle_leaf).

Notation "'minds' m" := (@triple P _ in_cycle m anything no_failure)
  (at level 10, m at level 9).

Lemma minds_out_of_fuel {A} : minds (@out_of_fuel P A).
Proof. intros w Hw. exact Hw. Qed.

#[local] Hint Resolve @minds_out_of_fuel : triple_db.

Ltac thr_fields :=
  cbn [systematic_id core victim running n_ld_tokens
       should_steal_for_fairness scheduled_unscanned_cown send_epoch
       prev_epoch state set_victim set_running set_n_ld_tokens
       set_should_steal_for_fairness set_scheduled_unscanned_cown
       set_send_epoch set_prev_epoch set_state].

(** What is left of [in_cycle] to show once the phase and the epochs of the
    worker are known. *)
Ltac in_phase Hc Hsend Hprev :=
  eexists; mrun; thr_fields;
  rewrite ?cycle_phase_snoc, ?Hc, ?Hsend, ?Hprev;
  try match goal with
      | H : state _ = _ |- _ => rewrite ?H
      end;
  cbn [phase_step EpochMark_eqb phase_epoch next_phase saved_epoch leaving
       ThreadState.eqb];
  repeat split; reflexivity.

Lemma ld_step_in_cycle (sprev snext : ThreadState.State) (w : World P) :
  in_cycle w ->
  state (thr w) = sprev ->
  (sprev = ThreadState.PreScan ->
   snext = ThreadState.Scan \/ snext = ThreadState.AllInScan) ->
  in_cycle (world_of ((ld_state_change snext ;;
                       ld_transition_actions R sprev) w)).
Proof.
  intros (ph & Hc & Hsend & Hprev & Hst) Hs Hnext.
  rewrite Hs in Hst.
  unfold ld_transition_actions, ld_state_change, enter_prescan, enter_scan,
    collect_cowns, pool_unpause, stats, this, update, log, emit, yield, when.
  mrun. thr_fields.
  destruct (ThreadState.eqb sprev ThreadState.PreScan) eqn:Hb.
  - apply (Bool.reflect_iff _ _ (ThreadState_eqb_spec _ _)) in Hb.
    destruct ph; try discriminate Hst;
      cbn [phase_epoch saved_epoch] in Hsend, Hprev;
      destruct (Hnext Hb) as [-> | ->]; mrun; thr_fields;
      rewrite ?Hprev; cbn [world_of EpochMark_eqb]; in_phase Hc Hsend Hprev.
  - clear Hnext.
    destruct ph; try discriminate Hst;
      cbn [phase_epoch saved_epoch] in Hsend, Hprev;
      destruct snext; mrun; thr_fields;
      rewrite ?Hsend, ?Hprev; cbn [EpochMark_eqb];
      repeat match goal with
             | |- context [let (_, _) := ?x in _] => destruct x
             | |- context [if scheduled_unscanned_cown ?t then _ else _] =>
                 destruct (scheduled_unscanned_cown t)
             end; mrun;
      repeat match goal with
             | |- context [if ?b then _ else _] => destruct b
             end; mrun; thr_fields; cbn [world_of].
    all: in_phase Hc Hsend Hprev.
Qed.

Lemma in_cycle_quiet (w w' : World P) :
  in_cycle w ->
  thr w' = thr w ->
  cycle_phase (trace w') = cycle_phase (trace w) ->
  in_cycle w'.
Proof.
  intros (ph & Hc & Hsend & Hprev & Hst) Ht Htr.
  exists ph. now rewrite Ht, Htr.
Qed.

Lemma minds_ld_protocol_loop (Hord : orderly R) fuel :
  minds (ld_protocol_loop R fuel).
Proof.
  induction fuel as [|fuel IH]; [apply minds_out_of_fuel|].
  intros w Hw.
  cbn [ld_protocol_loop]. unfold this, yield, pool_next_state. mrun.
  pose proof (Hord (env w)) as Ho. cbn zeta in Ho.
  destruct (next_state R (state (thr w)) (env w)) as [snext p] eqn:E.
  mrun.
  set (sprev := state (thr w)) in *.
  set (w1 := with_event (PoolNextState sprev snext) (with_env p w)).
  assert (Hw1 : in_cycle w1 /\ thr w1 = thr w).
  { split; [|reflexivity].
    apply (in_cycle_quiet w); [assumption|reflexivity|].
    subst w1. mrun. rewrite cycle_phase_snoc.
    now destruct (cycle_phase (trace w)). }
  clearbody w1.
  set (lost_wakeup := ThreadState.eqb sprev ThreadState.PreScan
                      && ThreadState.eqb snext ThreadState.PreScan).
  assert (Hw2 : exists w2,
             (if lost_wakeup
              then signalled <- pool_unpause R ;;
                   me <- gets (fun w0 : World P => core (thr w0)) ;;
                   when signalled (stats me StatUnpause)
              else ret tt) w1 = Done tt w2
             /\ in_cycle w2 /\ thr w2 = thr w).
  { destruct Hw1 as [Hin Ht]. destruct lost_wakeup.
    - unfold pool_unpause, stats, emit. mrun.
      destruct (unpause R (env w1)) as [[] p1]; mrun;
        (eexists; split; [reflexivity|]); (split; [|exact Ht]);
        (apply (in_cycle_quiet w1); [assumption|reflexivity|]); mrun;
        rewrite ?cycle_phase_snoc; now destruct (cycle_phase (trace w1)).
    - exists w1. auto. }
  destruct Hw2 as (w2 & -> & Hin2 & Ht2). clear Hw1 w1.
  destruct (ThreadState.eqb snext sprev) eqn:Hsame; [now split|].
  mrun.
  assert (Hallowed : sprev = ThreadState.PreScan ->
                     snext = ThreadState.Scan
                     \/ snext = ThreadState.AllInScan).
  { intros Hpre. rewrite Hpre in E, Hsame. rewrite E in Ho. cbn [fst] in Ho.
    destruct Ho as [Ho|Ho]; [|exact Ho].
    rewrite Ho in Hsame. discriminate. }
  assert (Hs2 : state (thr w2) = sprev) by now rewrite Ht2.
  pose proof (ld_step_in_cycle sprev snext w2 Hin2 Hs2 Hallowed) as Hstep.
  cbn [bind] in Hstep.
  destruct (ld_state_change snext w2) as [[] w3|e w3|w3]; [|exact (conj Hstep (fun x => x))|exact Hstep].
  destruct (ld_transition_actions R sprev w3) as [again w4|e w4|w4];
    cbn [world_of] in Hstep; [|now split|assumption].
  destruct again; [now apply IH|now split].
Qed.

Lemma minds_ld_protocol (Hord : orderly R) fuel : minds (ld_protocol R fuel).
Proof.
  intros w Hw.
  pose proof (minds_ld_protocol_loop Hord fuel) as Hloop.
  unfold ld_protocol, ld_checkpoint_reached, pool_no_inflight_messages,
    ld_state_change, enter_scan, this, update, log, emit.
  mrun.
  destruct (ThreadState.eqb (state (thr w)) ThreadState.AllInScan
            && (n_ld_tokens (thr w) =? 0)) eqn:Hvote; mrun;
    [|now apply Hloop].
  apply andb_prop in Hvote as [Hs _].
  apply (Bool.reflect_iff _ _ (ThreadState_eqb_spec _ _)) in Hs.
  destruct Hw as (ph & Hc & Hsend & Hprev & Hst). rewrite Hs in Hst.
  destruct ph; try discriminate Hst;
    cbn [phase_epoch saved_epoch] in Hsend, Hprev;
    destruct (negb (scheduled_unscanned_cown (thr w))
              && no_inflight_messages R (env w));
    mrun; thr_fields; rewrite ?Hprev; cbn [EpochMark_eqb];
    apply Hloop; in_phase Hc Hsend Hprev.
Qed.

Lemma minds_want_ld : minds want_ld.
Proof.
  intros w (ph & Hc & Hsend & Hprev & Hst).
  unfold want_ld, ld_state_change, this, update, log, emit, when. mrun.
  destruct (state (thr w)) eqn:Hs; cbn [ThreadState.eqb]; mrun;
    (split; [|exact I]); try (exists ph; now rewrite Hs).
  cbn [ThreadState.eqb] in Hst.
  destruct ph; try discriminate Hst; in_phase Hc Hsend Hprev.
Qed.

Lemma minds_stub_walk dt chain :
  forall rc cnt, minds (stub_walk R dt chain rc cnt).
Proof.
  induction chain as [|c rest IH]; intros rc cnt; cbn [stub_walk];
    cycle_auto.
Qed.

#[local] Hint Resolve minds_stub_walk : triple_db.

Lemma minds_steal_loop (Hord : orderly R) fuel :
  forall tsc, minds (steal_loop R fuel tsc).
Proof.
  pose proof (minds_ld_protocol Hord) as Hld.
  induction fuel as [|fuel IH]; intros tsc; cbn [steal_loop];
    unfold q_dequeue; cycle_auto.
Qed.

Lemma minds_turn (Hord : orderly R) fuel cown : minds (turn R fuel cown).
Proof.
  pose proof (minds_ld_protocol Hord) as Hld.
  pose proof (minds_steal_loop Hord) as Hsteal.
  unfold turn, select, dispatch, steal, collect_cown_stubs, core_drain,
    core_add_cowns, core_add_cown, reschedule, prerun, dec_n_ld_tokens,
    schedule_fifo, fast_steal, q_dequeue, cown_run.
  cycle_auto.
Qed.

Lemma minds_called_from_outside m : called_from_outside R m -> minds m.
Proof.
  intros []; try apply minds_want_ld;
    unfold schedule_fifo, schedule_lifo, stop; cycle_auto.
Qed.

Lemma minds_run_inner_prologue : minds run_inner_prologue.
Proof. unfold run_inner_prologue. cycle_auto. Qed.

Lemma reachable_in_cycle (Hord : orderly R) cown w :
  reachable R cown w -> in_cycle w.
Proof.
  induction 1 as [id c cs h p w Hrun|fuel cown w nc w' _ IH Hturn
                 |m cown w w' _ IH Hm Hrun|cown w cs h p _ IH].
  - assert (Hfresh : in_cycle (mkWorld (new_thread id c) cs h p []))
      by (exists AtA; cbn; auto).
    pose proof (minds_run_inner_prologue _ Hfresh) as Hk.
    rewrite Hrun in Hk. apply Hk.
  - pose proof (minds_turn Hord fuel cown w IH) as Hk.
    rewrite Hturn in Hk. apply Hk.
  - pose proof (minds_called_from_outside m Hm w IH) as Hk.
    rewrite Hrun in Hk. apply Hk.
  - apply (in_cycle_quiet w); auto.
Qed.

Lemma turn_in_cycle (Hord : orderly R) fuel cown w :
  reachable R cown w -> in_cycle (world_of (turn R fuel cown w)).
Proof.
  intros Hreach. apply (reachable_in_cycle Hord) in Hreach.
  pose proof (minds_turn Hord fuel cown w Hreach) as Hk.
  destruct (turn R fuel cown w); cbn [world_of]; tauto.
Qed.


(** Without that order the lines can leave the cycle: two [enter_prescan]
    in a row forget the epoch the worker came from, and a worker that was at
    [EPOCH_B] is back at [EPOCH_B] after [EPOCH_NONE]. *)
Example prescan_twice_leaves_the_cycle (w : World P) :
  send_epoch (thr w) = EPOCH_B ->
  let lines := [Logged (SendEpoch1 EPOCH_NONE);
                Logged (SendEpoch1 EPOCH_NONE);
                Logged (SendEpoch2 EPOCH_B)] in
  let w' := world_of ((enter_prescan ;; enter_prescan ;; enter_scan) w) in
  send_epoch (thr w') = EPOCH_B
  /\ trace w' = trace w ++ lines ++ [CoreScan (core (thr w))]
  /\ fold_left phase_step lines (Some AtB) = None.
Proof.
  intros Hsend. unfold enter_prescan, enter_scan, this, update, log, emit.
  mrun. cbn [world_of]. mrun. thr_fields. cbn [EpochMark_eqb].
  rewrite <- !app_assoc. repeat split.
Qed.

(** ** Parking *)

Lemma watch_snoc tsc start l e :
  watch tsc start (l ++ [e]) = watch_step tsc (watch tsc start l) e.
Proof. unfold watch. now rewrite fold_left_app. Qed.

Ltac watch_leaf :=
  let w := fresh "w" in
  let rest := fresh "rest" in
  let last := fresh "last" in
  let Htr := fresh "Htr" in
  let Hw := fresh "Hw" in
  intros w (rest & last & Htr & Hw);
  unfold_prims;
  mrun;
  repeat match goal with
         | |- context [let (_, _) := ?x in _] => destruct x
         | |- context [if ?b then _ else _] => destruct b
         end;
  mrun;
  try (split; [|exact I || (intros [])]);
  first [ exists rest, last; split; [exact Htr|exact Hw]
        | eexists (rest ++ [_]), last; mrun; split;
          [rewrite Htr, app_assoc; reflexivity
          |rewrite watch_snoc, Hw; reflexivity] ].

Ltac watch_auto := repeat (triple_step watch_leaf).

Notation "'watches' m" :=
  (forall base tsc start,
      @triple P _ (watched base tsc start) m anything no_failure)
  (at level 10, m at level 9).

Lemma watches_q_dequeue c : watches (q_dequeue c).
Proof. intros. unfold q_dequeue. watch_auto. Qed.

Lemma watches_ld_state_change s : watches (ld_state_change s).
Proof.
  intros base tsc start w (rest & last & Htr & Hw).
  unfold ld_state_change. unfold_prims. mrun. split; [|exact I].
  eexists (rest ++ [_]), last; mrun; split.
  - rewrite Htr, app_assoc; reflexivity.
  - rewrite watch_snoc, Hw; reflexivity.
Qed.

#[local] Hint Resolve watches_q_dequeue watches_ld_state_change : triple_db.

Lemma watches_enter_prescan : watches enter_prescan.
Proof. intros. unfold enter_prescan. watch_auto. Qed.

Lemma watches_enter_scan : watches enter_scan.
Proof. intros. unfold enter_scan. watch_auto. Qed.

Lemma watches_collect_cowns : watches collect_cowns.
Proof. intros. unfold collect_cowns. watch_auto. Qed.

#[local] Hint Resolve watches_enter_prescan watches_enter_scan
  watches_collect_cowns : triple_db.

Lemma watches_ld_transition_actions sprev :
  watches (ld_transition_actions R sprev).
Proof. intros. unfold ld_transition_actions. watch_auto. Qed.

#[local] Hint Resolve watches_ld_transition_actions : triple_db.

Lemma watches_out_of_fuel {A} : watches (@out_of_fuel P A).
Proof. intros base tsc start w Hw. exact Hw. Qed.

#[local] Hint Resolve @watches_out_of_fuel : triple_db.

Lemma watches_ld_protocol_loop fuel : watches (ld_protocol_loop R fuel).
Proof.
  induction fuel as [|fuel IH]; intros; cbn [ld_protocol_loop]; watch_auto.
Qed.

#[local] Hint Resolve watches_ld_protocol_loop : triple_db.

Lemma watches_ld_protocol fuel : watches (ld_protocol R fuel).
Proof. intros. unfold ld_protocol, ld_checkpoint_reached. watch_auto. Qed.

#[local] Hint Resolve watches_ld_protocol : triple_db.

Lemma watched_snoc base tsc start (w w' : World P) e last' :
  watched base tsc start w ->
  trace w' = trace w ++ [e] ->
  (forall last,
      watch_step tsc (state (thr w), last, true) e
      = (state (thr w'), last' last, true)) ->
  watched base tsc start w'.
Proof.
  intros (rest & last & Htr & Hw) Htr' Hstep.
  exists (rest ++ [e]), (last' last). split.
  - now rewrite Htr', Htr, app_assoc.
  - now rewrite watch_snoc, Hw, Hstep.
Qed.

Ltac peel :=
  eapply triple_bind with (Q := anything); [solve [watch_auto]|intros ? _].

Lemma steal_loop_parks fuel :
  forall base tsc start,
    triple (watched base tsc start) (steal_loop R fuel tsc) anything
           no_failure.
Proof.
  induction fuel as [|fuel IH]; intros base tsc start; cbn [steal_loop].
  { intros w Hw. exact Hw. }
  eapply triple_bind with (Q := anything); [solve [watch_auto]|intros r _].
  destruct r; cbn [negb]; [|solve [watch_auto]].
  peel. eapply triple_bind with (Q := anything);
    [solve [watch_auto]|intros me _].
  do 3 peel.
  eapply triple_bind with (Q := anything);
    [solve [watch_auto]|intros cown _].
  destruct (negb (is_null cown)); [solve [watch_auto]|].
  eapply triple_bind with (Q := anything); [solve [watch_auto]|intros v _].
  eapply triple_bind with (Q := anything);
    [solve [watch_auto]|intros cown0 _].
  destruct (negb (Nat.eqb v me) && negb (is_null cown0));
    [solve [watch_auto]|].
  do 2 peel.
  intros w Hw. unfold aal_tick. cbn [bind].
  destruct (tick R (env w)) as [t p].
  set (w1 := with_event (AalTick (wrap64 t)) (with_env p w)).
  assert (Hw1 : exists rest,
             trace w1 = base ++ rest
             /\ watch tsc start rest = (state (thr w1), Some (wrap64 t), true)).
  { destruct Hw as (rest & last & Htr & Hwatch).
    exists (rest ++ [AalTick (wrap64 t)]). split.
    - subst w1. mrun. now rewrite Htr, app_assoc.
    - now rewrite watch_snoc, Hwatch. }
  clearbody w1. clear Hw w.
  destruct Hw1 as (rest & Htr & Hwatch).
  assert (Hin : watched base tsc start w1) by (exists rest; eauto).
  destruct (wrap64 (wrap64 t - tsc) <? TSC_QUIESCENCE_TIMEOUT) eqn:Hdelta.
  - unfold emit. mrun. apply IH.
    eapply watched_snoc with (last' := fun l => l); [exact Hin|reflexivity|].
    reflexivity.
  - unfold this. mrun.
    destruct (ThreadState.eqb (state (thr w1)) ThreadState.NotInLD) eqn:Hs.
    + unfold pool_pause. mrun.
      destruct (pause R (env w1)) as [woken p2]. mrun.
      set (w2 := with_event (PoolPause woken) _).
      assert (Hw2 : watched base tsc start w2).
      { exists (rest ++ [PoolPause woken]), (Some (wrap64 t)).
        subst w2. destruct (stopped R p2); mrun; thr_fields;
          (split;
           [now rewrite Htr, app_assoc
           |rewrite watch_snoc, Hwatch;
            cbn [watch_step backoff_elapsed andb];
            rewrite Hs, Z.leb_antisym, Hdelta; reflexivity]). }
      clearbody w2. unfold stats, emit.
      destruct woken; mrun; apply IH; [|exact Hw2].
      eapply watched_snoc with (last' := fun l => l);
        [exact Hw2|reflexivity|reflexivity].
    + mrun. apply IH. exact Hin.
Qed.

(** C7.  In the trace of [steal()], whose first event is the timestamp [tsc]
    it starts with, every [pause()] of the thread pool comes while the LD
    state of the worker is [NotInLD] and after a timestamp at least
    [TSC_QUIESCENCE_TIMEOUT] = 1000000 cycles later than [tsc]: a worker in
    any other LD state does not park.  The LD state is read off the
    state-change lines of the trace, and is that of the worker wherever the
    run gets to. *)
Theorem steal_parks_only_when_idle (fuel : nat) (w : World P) :
  exists tsc rest,
    let w' := world_of (steal R fuel w) in
    trace w' = trace w ++ AalTick tsc :: rest
    /\ parks_in_order tsc (state (thr w)) rest = true
    /\ state_read tsc (state (thr w)) rest = state (thr w').
Proof.
  unfold steal, aal_tick. cbn [bind].
  destruct (tick R (env w)) as [t p].
  set (w1 := with_event (AalTick (wrap64 t)) (with_env p w)).
  assert (Hw1 : watched (trace w1) (wrap64 t) (state (thr w)) w1).
  { exists [], None. split; [now rewrite app_nil_r|reflexivity]. }
  pose proof (steal_loop_parks fuel _ _ _ w1 Hw1) as Hloop.
  assert (Hend : watched (trace w1) (wrap64 t) (state (thr w))
                         (world_of (steal_loop R fuel (wrap64 t) w1))).
  { destruct (steal_loop R fuel (wrap64 t) w1); cbn [world_of]; tauto. }
  destruct Hend as (rest & last & Htr & Hwatch).
  exists (wrap64 t), rest. split.
  - rewrite Htr. subst w1. mrun. now rewrite <- app_assoc.
  - unfold parks_in_order, state_read. now rewrite Hwatch.
Qed.

(** ** More on the thread bit *)

Lemma clear_mask_bits n :
  0 <= n ->
  Z.testbit (Z.lxor (Z.ones 64) 1) n = (0 <? n) && (n <? 64).
Proof.
  intros Hn. rewrite Z.lxor_spec, Z.testbit_ones_nonneg by lia.
  destruct (Z.eq_dec n 0) as [->|Hz]; [reflexivity|].
  replace (Z.testbit 1 n) with false.
  - destruct (Z.ltb_spec 0 n), (Z.ltb_spec n 64); try lia; reflexivity.
  - symmetry. change 1 with (2 ^ 0). apply Z.pow2_bits_false. lia.
Qed.

Lemma testbit_high_64 p n : 0 <= p < 2 ^ 64 -> 64 <= n -> Z.testbit p n = false.
Proof.
  intros Hp Hn. rewrite <- (Z.mod_small p (2 ^ 64)) by assumption.
  apply Z.mod_pow2_bits_high. lia.
Qed.

Lemma thread_bit_is_bit_0 p : has_thread_bit p = Z.testbit p 0.
Proof.
  unfold has_thread_bit. rewrite Z.bit0_odd.
  change 1 with (Z.ones 1). rewrite Z.land_ones by lia.
  change (2 ^ 1) with 2. rewrite Zmod_odd.
  destruct (Z.odd p); reflexivity.
Qed.

Lemma clear_thread_bit_bits p n :
  0 <= n ->
  Z.testbit (clear_thread_bit p) n = Z.testbit p n && (0 <? n) && (n <? 64).
Proof.
  intros Hn. unfold clear_thread_bit.
  now rewrite Z.land_spec, clear_mask_bits, andb_assoc.
Qed.

(** X1.  [clear_thread_bit] gives a value without the thread bit, whatever it
    is given, and doing it twice is doing it once; it leaves a 64-bit value
    without the bit alone, and takes just the bit off one that has it. *)
Theorem clear_thread_bit_clears :
  (forall p, has_thread_bit (clear_thread_bit p) = false)
  /\ (forall p, clear_thread_bit (clear_thread_bit p) = clear_thread_bit p)
  /\ (forall p, 0 <= p < 2 ^ 64 ->
        clear_thread_bit p = if has_thread_bit p then p - 1 else p).
Proof.
  repeat split.
  - intros p. rewrite thread_bit_is_bit_0, clear_thread_bit_bits by lia.
    now rewrite andb_false_r.
  - intros p. unfold clear_thread_bit.
    now rewrite <- Z.land_assoc, Z.land_diag.
  - intros p Hp. apply Z.bits_inj'. intros n Hn.
    rewrite clear_thread_bit_bits by assumption.
    rewrite thread_bit_is_bit_0.
    destruct (Z.testbit p 0) eqn:Hbit.
    + (* p is odd: p - 1 has the same bits but bit 0 *)
      assert (Hodd : p = 2 * (p / 2) + 1).
      { rewrite Z.bit0_odd in Hbit. rewrite (Zodd_div2 p) at 1.
        - now rewrite Z.div2_div.
        - now apply Zodd_bool_iff. }
      replace (p - 1) with (2 * (p / 2)) by lia.
      destruct (Z.eq_dec n 0) as [->|Hz].
      * rewrite Z.testbit_even_0. now rewrite andb_false_r.
      * replace n with (Z.succ (n - 1)) at 4 by lia.
        rewrite Z.testbit_even_succ by lia.
        replace (0 <? n) with true by (symmetry; apply Z.ltb_lt; lia).
        rewrite andb_true_r.
        assert (Hshift : Z.testbit p n = Z.testbit (p / 2) (n - 1)).
        { rewrite Hodd at 1. replace n with (Z.succ (n - 1)) at 1 by lia.
          apply Z.testbit_odd_succ. lia. }
        rewrite <- Hshift.
        destruct (Z.ltb_spec n 64); [now rewrite andb_true_r|].
        rewrite testbit_high_64 by assumption. reflexivity.
    + destruct (Z.eq_dec n 0) as [->|Hz]; [now rewrite Hbit|].
      replace (0 <? n) with true by (symmetry; apply Z.ltb_lt; lia).
      rewrite andb_true_r.
      destruct (Z.ltb_spec n 64); [now rewrite andb_true_r|].
      rewrite testbit_high_64 by assumption. reflexivity.
Qed.

(** ** Registration, scheduling and stealing *)

(** X2.  [prerun] of a value without the thread bit returns [true] and leaves
    the worker, the queues and the environment alone.  A cown that has an
    owning core is not touched at all; one that has none is bound to the core
    of the worker, linked at the head of its registry, and counted in
    [total_cowns].  Either way the cown has an owning core afterwards. *)
Theorem prerun_registers (cown : ptr) (w : World P) :
  has_thread_bit cown = false ->
  let me := core (thr w) in
  exists w',
    prerun R cown w = Done true w'
    /\ thr w' = thr w /\ env w' = env w /\ trace w' = trace w
    /\ (forall c, q (cores w' c) = q (cores w c))
    /\ match owning_core (heap w cown) with
       | Some owner =>
           owning_core (heap w' cown) = Some owner
           /\ (forall c, cores w' c = cores w c)
           /\ (forall p, heap w' p = heap w p)
       | None =>
           owning_core (heap w' cown) = Some me
           /\ cowns (cores w' me) = cown :: cowns (cores w me)
           /\ total_cowns (cores w' me)
              = wrap64 (total_cowns (cores w me) + 1)
           /\ free_cowns (cores w' me) = free_cowns (cores w me)
           /\ (forall c, c <> me -> cores w' c = cores w c)
           /\ (forall p, p <> cown -> heap w' p = heap w p)
       end.
Proof.
  intros Hbit me. subst me. unfold prerun. rewrite Hbit.
  unfold deref, this, core_add_cown, core_upd. mrun.
  destruct (owning_core (heap w cown)) as [owner|] eqn:Howner; mrun.
  - eexists; split; [reflexivity|]. rewrite Howner. auto 10.
  - eexists; split; [reflexivity|]. mrun.
    unfold upd_heap, upd_core. rewrite Z.eqb_refl, Nat.eqb_refl. cbn.
    repeat split; auto.
    + intros c. destruct (Nat.eqb c (core (thr w))); reflexivity.
    + intros c Hc. apply Nat.eqb_neq in Hc. now rewrite Hc.
    + intros p Hp. apply Z.eqb_neq in Hp. now rewrite Hp.
Qed.

(** X3.  [fast_steal] takes the head of the victim's queue when the victim is
    another core and has one, and keeps the victim; in every other case, the
    victim being the worker's own core included, it takes nothing, returns
    [false] and moves the victim on to [victim->next].  It never touches the
    queue of the worker's own core. *)
Theorem fast_steal_rotates (w : World P) :
  let me := core (thr w) in
  let v := victim (thr w) in
  let head := hd nullptr (q (cores w v)) in
  exists w',
    fast_steal w
    = Done (if negb (Nat.eqb v me) && negb (is_null head)
            then Some head else None) w'
    /\ q (cores w' me) = q (cores w me)
    /\ victim (thr w')
       = (if negb (Nat.eqb v me) && negb (is_null head)
          then v else next (cores w v))
    /\ (v <> me -> q (cores w' v) = tl (q (cores w v)))
    /\ (forall c, c <> v -> cores w' c = cores w c)
    /\ set_victim v (thr w') = thr w
    /\ heap w' = heap w /\ env w' = env w /\ trace w' = trace w.
Proof.
  intros me v head. unfold fast_steal, this, update, core_get. mrun.
  fold me v. destruct (Nat.eqb v me) eqn:Hv; mrun.
  - apply Nat.eqb_eq in Hv. eexists; split; [reflexivity|]. mrun.
    cbn [victim set_victim]. repeat split; auto; try congruence.
    destruct (thr w); reflexivity.
  - apply Nat.eqb_neq in Hv. rewrite q_dequeue_eq. mrun. fold head.
    destruct (q (cores w v)) as [|s rest] eqn:Hq; subst head; cbn [hd tl];
      [|destruct (is_null s) eqn:Hs]; mrun;
      (eexists; split; [reflexivity|]); mrun; cbn [victim set_victim];
      rewrite ?upd_core_same, ?upd_core_other by congruence;
      cbn [q set_q next]; rewrite ?Hq;
      (repeat split; auto);
      try (intros c Hc; now rewrite ?upd_core_other by assumption);
      try (destruct (thr w); reflexivity).
Qed.

(** X4.  [schedule_fifo] of a cown that is awake puts it at the tail of the
    worker's own queue and asks the pool to unpause; it raises
    [scheduled_unscanned_cown] when the cown is not scanned in the current
    send epoch and never lowers it.  A cown that is asleep fails the
    assertion: nothing is enqueued and the pool is not called. *)
Theorem schedule_fifo_enqueues (a : ptr) (w : World P) :
  let me := core (thr w) in
  (is_sleeping (heap w a) = false ->
   exists w',
     schedule_fifo R a w = Done tt w'
     /\ q (cores w' me) = q (cores w me) ++ [a]
     /\ scheduled_unscanned_cown (thr w')
        = scheduled_unscanned_cown (thr w)
          || negb (scanned (heap w a) (send_epoch (thr w)))
     /\ set_scheduled_unscanned_cown false (thr w')
        = set_scheduled_unscanned_cown false (thr w)
     /\ (forall c, c <> me -> cores w' c = cores w c)
     /\ heap w' = heap w
     /\ env w' = snd (unpause R (env w))
     /\ exists rest,
         trace w' = trace w ++ PoolUnpause (fst (unpause R (env w))) :: rest)
  /\ (is_sleeping (heap w a) = true ->
      exists w',
        schedule_fifo R a w = Abort AssertNotSleeping w'
        /\ cores w' = cores w /\ heap w' = heap w
        /\ env w' = env w /\ trace w' = trace w).
Proof.
  intros me. subst me.
  unfold schedule_fifo, this, deref, update, q_enqueue, core_upd, when,
    pool_unpause, stats, emit.
  split; intros Hsleep; mrun; rewrite Hsleep.
  - destruct (scanned (heap w a) (send_epoch (thr w))); mrun;
      destruct (unpause R (env w)) as [[] p]; mrun;
      (eexists; split; [reflexivity|]); mrun; thr_fields;
      rewrite upd_core_same; cbn [q set_q fst snd];
      rewrite ?orb_true_r, ?orb_false_r;
      (repeat split; auto);
      try (intros c Hc; now rewrite upd_core_other by assumption);
      rewrite <- ?app_assoc; eexists; reflexivity.
  - destruct (scanned (heap w a) (send_epoch (thr w))); mrun;
      eexists; split; reflexivity || auto.
Qed.

(** X5.  [want_ld] takes a worker that is in [NotInLD] to [WantLD] and leaves
    one that is anywhere else in the LD protocol as it is; asking twice is
    asking once. *)
Theorem want_ld_once (w : World P) :
  exists w',
    want_ld w = Done tt w'
    /\ state (thr w')
       = (if ThreadState.eqb (state (thr w)) ThreadState.NotInLD
          then ThreadState.WantLD else state (thr w))
    /\ set_state ThreadState.NotInLD (thr w')
       = set_state ThreadState.NotInLD (thr w)
    /\ cores w' = cores w /\ heap w' = heap w /\ env w' = env w
    /\ (state (thr w) <> ThreadState.NotInLD -> w' = w)
    /\ want_ld w' = Done tt w'.
Proof.
  unfold want_ld, ld_state_change, this, update, log, emit, when. mrun.
  destruct (state (thr w)) eqn:Hs; cbn [ThreadState.eqb]; mrun;
    (eexists; split; [reflexivity|]); mrun; thr_fields;
    rewrite ?Hs; cbn [ThreadState.eqb]; mrun;
    repeat split; auto; congruence.
Qed.


(** ** More on the LD protocol *)

(** One turn of the loop of [ld_protocol] when the pool answers a state other
    than the worker's. *)
Lemma ld_protocol_loop_moves (fuel : nat) (w : World P) snext p :
  next_state R (state (thr w)) (env w) = (snext, p) ->
  ThreadState.eqb snext (state (thr w)) = false ->
  ld_protocol_loop R (S fuel) w
  = (ld_state_change snext ;;
     again <- ld_transition_actions R (state (thr w)) ;;
     if again then ld_protocol_loop R fuel else ret tt)
      (with_event (PoolNextState (state (thr w)) snext) (with_env p w)).
Proof.
  intros Hnext Hmoves. cbn [ld_protocol_loop].
  unfold this at 1, yield, pool_next_state. mrun. rewrite Hnext. mrun.
  rewrite Hmoves.
  replace (ThreadState.eqb (state (thr w)) ThreadState.PreScan
           && ThreadState.eqb snext ThreadState.PreScan) with false.
  - reflexivity.
  - destruct (state (thr w)), snext; try reflexivity; discriminate.
Qed.

(** X6.  When the pool answers the state the worker is in, the loop of
    [ld_protocol] returns at once and the worker is as it was.  The pool is
    asked to unpause in this case exactly when the state is [PreScan], the
    guard against a lost wake-up, and the core counts it if someone was
    signalled. *)
Theorem ld_protocol_loop_stationary (fuel : nat) (w : World P) :
  let s := state (thr w) in
  let me := core (thr w) in
  let p := snd (next_state R s (env w)) in
  fst (next_state R s (env w)) = s ->
  exists w',
    ld_protocol_loop R (S fuel) w = Done tt w'
    /\ thr w' = thr w /\ cores w' = cores w /\ heap w' = heap w
    /\ trace w'
       = trace w ++ PoolNextState s s
         :: (if ThreadState.eqb s ThreadState.PreScan
             then PoolUnpause (fst (unpause R p))
                  :: (if fst (unpause R p) then [Stats me StatUnpause]
                      else [])
             else [])
    /\ env w' = (if ThreadState.eqb s ThreadState.PreScan
                 then snd (unpause R p) else p).
Proof.
  intros s me p Hnext. subst s me p. cbn [ld_protocol_loop].
  unfold this, yield, pool_next_state, pool_unpause, stats, emit, when.
  mrun. destruct (next_state R (state (thr w)) (env w)) as [snext p].
  cbn [fst snd] in *. subst snext. mrun.
  rewrite andb_diag, ThreadState_eqb_refl.
  destruct (ThreadState.eqb (state (thr w)) ThreadState.PreScan); mrun.
  - destruct (unpause R p) as [[] p']; mrun;
      (eexists; split; [reflexivity|]); mrun; cbn [fst snd];
      rewrite <- ?app_assoc; auto 10.
  - eexists; split; [reflexivity|]. mrun. auto 10.
Qed.

(** X7.  [ld_protocol] plays catch up with the pool: when its loop returns,
    the worker is in the state the pool answered last. *)
Theorem ld_protocol_loop_catches_up (fuel : nat) :
  forall w w' : World P,
    ld_protocol_loop R fuel w = Done tt w' ->
    exists before cur after,
      trace w' = trace w ++ before
                 ++ PoolNextState cur (state (thr w')) :: after
      /\ forallb (fun e => negb (is_pool_answer e)) after = true.
Proof.
  induction fuel as [|fuel IH]; intros w w' Hrun; [discriminate|].
  destruct (next_state R (state (thr w)) (env w)) as [snext p] eqn:Hnext.
  destruct (ThreadState.eqb snext (state (thr w))) eqn:Hsame.
  - apply (Bool.reflect_iff _ _ (ThreadState_eqb_spec _ _)) in Hsame.
    subst snext.
    destruct (ld_protocol_loop_stationary fuel w)
      as (w1 & Hrun1 & Ht & _ & _ & Htr & _);
      [now rewrite Hnext|].
    rewrite Hrun1 in Hrun. injection Hrun as <-.
    exists [], (state (thr w)). rewrite Ht. eexists. split; [exact Htr|].
    destruct (ThreadState.eqb (state (thr w)) ThreadState.PreScan);
      [destruct (fst (unpause R _))|]; reflexivity.
  - rewrite (ld_protocol_loop_moves fuel w snext p Hnext Hsame) in Hrun.
    revert Hrun.
    unfold ld_state_change, ld_transition_actions, enter_prescan, enter_scan,
      collect_cowns, pool_unpause, stats, this, update, log, emit, when.
    mrun. thr_fields.
    destruct snext; mrun;
      repeat match goal with
             | |- context [let (_, _) := ?x in _] => destruct x
             | |- context [if scheduled_unscanned_cown ?t then _ else _] =>
                 destruct (scheduled_unscanned_cown t)
             end; mrun;
      repeat match goal with
             | |- context [if ?b then _ else _] => destruct b
             end; mrun; thr_fields.
    all: intros Hrun.
    all: try (injection Hrun as <-; mrun; thr_fields;
              exists []; do 2 eexists; rewrite <- ?app_assoc; cbn [app];
              split; reflexivity).
    all: apply IH in Hrun; destruct Hrun as (before & cur & after & Htr & Hq);
      revert Htr; mrun; thr_fields; rewrite <- ?app_assoc; cbn [app];
      intros Htr;
      first [ exists (_ :: before), cur, after; split; [exact Htr|exact Hq]
            | eexists (_ :: _ :: before), cur, after;
              split; [exact Htr|exact Hq]
            | eexists (_ :: _ :: _ :: before), cur, after;
              split; [exact Htr|exact Hq]
            | eexists (_ :: _ :: _ :: _ :: before), cur, after;
              split; [exact Htr|exact Hq]
            | eexists (_ :: _ :: _ :: _ :: _ :: before), cur, after;
              split; [exact Htr|exact Hq] ].
Qed.

(** X8.  The vote of [ld_protocol], before it plays catch up.  Only a worker
    in [AllInScan] whose checkpoint is reached ([n_ld_tokens] is 0) does
    anything.  It votes [BelieveDone_Vote] when it has scheduled no unscanned
    cown and the pool sees no message in flight: a change of state and its
    log line, nothing else.  Otherwise it starts its scan again: it stays in
    [AllInScan], sets the send epoch from the saved one, logs it, calls
    [core->scan], waits for two LD tokens again and clears the unscanned
    flag.  What [core->scan] does to the cowns is its own matter and no part
    of the statement. *)
Theorem ld_protocol_votes (fuel : nat) (w : World P) :
  let checkpoint := ThreadState.eqb (state (thr w)) ThreadState.AllInScan
                    && (n_ld_tokens (thr w) =? 0) in
  let done := negb (scheduled_unscanned_cown (thr w))
              && no_inflight_messages R (env w) in
  exists w1,
    ld_protocol R fuel w = ld_protocol_loop R fuel w1
    /\ (checkpoint = false -> w1 = w)
    /\ (checkpoint = true -> done = true ->
        thr w1 = set_state ThreadState.BelieveDone_Vote (thr w)
        /\ cores w1 = cores w /\ heap w1 = heap w /\ env w1 = env w
        /\ trace w1 = trace w
             ++ [Logged (SchedulerStateChange ThreadState.AllInScan
                           ThreadState.BelieveDone_Vote)])
    /\ (checkpoint = true -> done = false ->
        state (thr w1) = ThreadState.AllInScan
        /\ send_epoch (thr w1) = flip_epoch (prev_epoch (thr w))
        /\ prev_epoch (thr w1) = prev_epoch (thr w)
        /\ n_ld_tokens (thr w1) = 2
        /\ scheduled_unscanned_cown (thr w1) = false
        /\ trace w1 = trace w
             ++ [Logged (SendEpoch2 (flip_epoch (prev_epoch (thr w))));
                 CoreScan (core (thr w))]).
Proof.
  intros checkpoint done. subst checkpoint done.
  unfold ld_protocol, ld_checkpoint_reached, ld_state_change, enter_scan,
    pool_no_inflight_messages, this, update, log, emit.
  mrun.
  destruct (ThreadState.eqb (state (thr w)) ThreadState.AllInScan) eqn:Hs;
    mrun.
  - apply (Bool.reflect_iff _ _ (ThreadState_eqb_spec _ _)) in Hs.
    destruct (n_ld_tokens (thr w) =? 0); mrun.
    + destruct (scheduled_unscanned_cown (thr w)); mrun;
        [|destruct (no_inflight_messages R (env w)); mrun];
        eexists; (split; [reflexivity|]); mrun; thr_fields;
        rewrite <- ?app_assoc; cbn [app]; rewrite ?Hs;
        repeat split; try discriminate; auto.
    + exists w. destruct w. repeat split; try discriminate; auto.
  - exists w. destruct w. repeat split; try discriminate; auto.
Qed.

(** ** The [running] flag *)

(** A leaf for an invariant that is a plain equation on the world. *)
Ltac frame_leaf :=
  let w := fresh "w" in
  let H := fresh "H" in
  intros w H;
  unfold_prims;
  mrun;
  repeat match goal with
         | |- context [let (_, _) := ?x in _] => destruct x
         | |- context [if ?b then _ else _] => destruct b
         end;
  mrun; thr_fields;
  try (split; [|exact I || (intros [])]);
  mrun; thr_fields; auto.

Ltac frame_auto := repeat (triple_step frame_leaf).

(** Nothing in the worker raises [running]: stopped, it stays stopped. *)
Notation "'stays_stopped' m" :=
  (@triple P _ (fun w => running (thr w) = false) m anything no_failure)
  (at level 10, m at level 9).

Lemma stopped_out_of_fuel {A} : stays_stopped (@out_of_fuel P A).
Proof. intros w Hw. exact Hw. Qed.

#[local] Hint Resolve @stopped_out_of_fuel : triple_db.

Lemma stopped_q_dequeue c : stays_stopped (q_dequeue c).
Proof. unfold q_dequeue. frame_auto. Qed.

Lemma stopped_ld_state_change s : stays_stopped (ld_state_change s).
Proof. unfold ld_state_change. frame_auto. Qed.

Lemma stopped_enter_prescan : stays_stopped enter_prescan.
Proof. unfold enter_prescan. frame_auto. Qed.

Lemma stopped_enter_scan : stays_stopped enter_scan.
Proof. unfold enter_scan. frame_auto. Qed.

#[local] Hint Resolve stopped_q_dequeue stopped_ld_state_change
  stopped_enter_prescan stopped_enter_scan : triple_db.

Lemma stopped_ld_protocol_loop fuel : stays_stopped (ld_protocol_loop R fuel).
Proof.
  induction fuel as [|fuel IH]; cbn [ld_protocol_loop];
    unfold ld_transition_actions, collect_cowns; frame_auto.
Qed.

#[local] Hint Resolve stopped_ld_protocol_loop : triple_db.

Lemma stopped_ld_protocol fuel : stays_stopped (ld_protocol R fuel).
Proof. unfold ld_protocol, ld_checkpoint_reached. frame_auto. Qed.

#[local] Hint Resolve stopped_ld_protocol : triple_db.

Lemma stopped_steal_loop fuel :
  forall tsc, stays_stopped (steal_loop R fuel tsc).
Proof.
  induction fuel as [|fuel IH]; intros tsc; cbn [steal_loop]; frame_auto.
Qed.

#[local] Hint Resolve stopped_steal_loop : triple_db.

Lemma stopped_stub_walk dt chain :
  forall rc cnt, stays_stopped (stub_walk R dt chain rc cnt).
Proof.
  induction chain as [|c rest IH]; intros rc cnt; cbn [stub_walk];
    frame_auto.
Qed.

Lemma stopped_schedule_fifo a : stays_stopped (schedule_fifo R a).
Proof. unfold schedule_fifo. frame_auto. Qed.

Lemma stopped_fast_steal : stays_stopped fast_steal.
Proof. unfold fast_steal. frame_auto. Qed.

#[local] Hint Resolve stopped_stub_walk stopped_schedule_fifo
  stopped_fast_steal : triple_db.

Lemma stopped_turn fuel cown : stays_stopped (turn R fuel cown).
Proof.
  unfold turn, select, steal, collect_cown_stubs, core_drain, core_add_cowns,
    dispatch, prerun, reschedule, dec_n_ld_tokens, core_add_cown, cown_run.
  frame_auto.
Qed.

#[local] Hint Resolve stopped_turn : triple_db.

Lemma stopped_run_loop fuel :
  forall cown, stays_stopped (run_loop R fuel cown).
Proof.
  induction fuel as [|fuel IH]; intros cown; cbn [run_loop]; frame_auto.
Qed.

(** A run that returns has gone through each of its steps. *)
Lemma bind_done {A B} (m : M P A) (f : A -> M P B) (w w' : World P) (b : B) :
  bind m f w = Done b w' ->
  exists a w1, m w = Done a w1 /\ f a w1 = Done b w'.
Proof.
  cbn [bind]. destruct (m w) as [a w1|e w1|w1]; try discriminate.
  intros H. exists a, w1. split; [reflexivity|exact H].
Qed.

Ltac peel_done H :=
  let a := fresh "a" in
  let w := fresh "w" in
  let E := fresh "E" in
  apply bind_done in H; destruct H as (a & w & E & H); cbn beta in H.

(** [steal] gives up, with [nullptr], only on finding the flag cleared:
    every other way out of its loop returns a cown it has dequeued. *)
Lemma steal_loop_gives_up fuel :
  forall tsc (w w' : World P) c,
    steal_loop R fuel tsc w = Done c w' ->
    is_null c = true ->
    running (thr w') = false.
Proof.
  induction fuel as [|fuel IH]; intros tsc w w' c Hrun Hnull;
    [discriminate|].
  cbn [steal_loop] in Hrun.
  apply bind_done in Hrun. destruct Hrun as (r & w0 & Hr & Hrun).
  injection Hr as <- <-.
  destruct (running (thr w)) eqn:Hflag; cbn [negb] in Hrun;
    [|injection Hrun as <- <-; exact Hflag].
  do 6 peel_done Hrun.
  destruct (is_null a4) eqn:Hmine; cbn [negb] in Hrun;
    [|injection Hrun as <- <-; congruence].
  do 2 peel_done Hrun.
  destruct (negb (Nat.eqb a5 a0) && negb (is_null a6)) eqn:Hstolen.
  - peel_done Hrun. injection Hrun as <- <-.
    apply andb_prop in Hstolen. destruct Hstolen as [_ Hstolen].
    rewrite Hnull in Hstolen. discriminate.
  - do 3 peel_done Hrun.
    destruct (wrap64 (a9 - tsc) <? TSC_QUIESCENCE_TIMEOUT).
    + peel_done Hrun. exact (IH _ _ _ _ Hrun Hnull).
    + do 2 peel_done Hrun. exact (IH _ _ _ _ Hrun Hnull).
Qed.

(** The loop of [run_inner] is left only through that way out. *)
Lemma turn_breaks_stopped fuel cown (w w' : World P) :
  turn R fuel cown w = Done None w' -> running (thr w') = false.
Proof.
  unfold turn. intros Hrun. peel_done Hrun.
  destruct (is_null a) eqn:Hnull.
  - injection Hrun as <-. revert E. unfold select. intros Hsel.
    do 7 peel_done Hsel.
    destruct (is_null a6) eqn:Hnone.
    + unfold steal in Hsel. peel_done Hsel.
      exact (steal_loop_gives_up _ _ _ _ _ Hsel Hnull).
    + injection Hsel as <- <-. congruence.
  - peel_done Hrun. discriminate.
Qed.

(** X9.  The loop of [run_inner] ends only for a stopped worker, and the
    worker never raises its own [running] flag.  When the loop returns, the
    flag is [false]: the only way out is [steal] finding it cleared, by a
    [stop()] that came before the turn or while the worker was paused.  And
    a worker that is stopped is still stopped wherever the loop gets to. *)
Theorem run_loop_ends_stopped (fuel : nat) :
  forall (cown : ptr) (w : World P),
    (forall w', run_loop R fuel cown w = Done tt w' ->
                running (thr w') = false)
    /\ (running (thr w) = false ->
        running (thr (world_of (run_loop R fuel cown w))) = false).
Proof.
  intros cown w. split.
  - revert cown w.
    induction fuel as [|fuel IH]; intros cown w w' Hrun; [discriminate|].
    cbn [run_loop] in Hrun. peel_done Hrun.
    destruct a as [next_cown|].
    + exact (IH _ _ _ Hrun).
    + injection Hrun as <-. exact (turn_breaks_stopped _ _ _ _ E).
  - intros Hstopped.
    pose proof (stopped_run_loop fuel cown w Hstopped) as Hloop.
    destruct (run_loop R fuel cown w); cbn [world_of]; apply Hloop.
Qed.

(** ** Stub collection, as a whole *)

(** A run of [collect_cown_stubs] in either mode: nothing in the two LD
    states that inhibit it; elsewhere the walk, then the assertion on
    [total_cowns], then the two counters. *)
Lemma collect_cown_stubs_run (dt : bool) (w : World P) :
  let me := core (thr w) in
  let registry := cowns (cores w me) in
  let gone := Z.of_nat (length (freed R dt (heap w) (env w) registry)) in
  let relinked := set_cowns (retained R dt (heap w) (env w) registry)
                            (cores w me) in
  if ThreadState.eqb (state (thr w)) ThreadState.ReallyDone_Confirm
     || ThreadState.eqb (state (thr w)) ThreadState.Finished
  then collect_cown_stubs R dt w = Done tt w
  else
    exists w',
      collect_cown_stubs R dt w
      = (if total_cowns (cores w me) =? wrap64 (Z.of_nat (length registry))
         then Done tt w' else Abort AssertTotalCowns w')
      /\ thr w' = thr w /\ heap w' = heap w /\ env w' = env w
      /\ trace w' = trace w ++ walk_events R dt (heap w) (env w) registry
      /\ (forall k, k <> me -> cores w' k = cores w k)
      /\ cores w' me
         = if total_cowns (cores w me) =? wrap64 (Z.of_nat (length registry))
           then set_total_cowns
                  (wrap64 (total_cowns (cores w me) - gone))
                  (set_free_cowns (wrap64 (free_cowns (cores w me) - gone))
                                  relinked)
           else relinked.
Proof.
  intros me registry gone relinked.
  unfold collect_cown_stubs, this, core_drain, core_get, core_upd,
    core_add_cowns.
  mrun.
  destruct (state (thr w)) eqn:Hs; cbn [ThreadState.eqb orb];
    try reflexivity;
    mrun; rewrite stub_walk_spec by lia;
    mrun; fold me; change (cowns (cores w me)) with registry;
    rewrite Z.add_0_l;
    set (kept := retained R dt (heap w) (env w) registry) in *;
    unfold when, core_upd, assert_;
    (destruct kept as [|k kept'] eqn:Hk; mrun; rewrite ?upd_core_same;
     cbn [total_cowns set_cowns set_free_cowns set_total_cowns];
     (destruct (total_cowns (cores w me)
                =? wrap64 (Z.of_nat (length registry))); mrun;
      (eexists; split; [reflexivity|]); mrun;
      rewrite ?upd_core_same;
      cbn [cowns q total_cowns free_cowns set_cowns set_free_cowns
           set_total_cowns];
      rewrite ?wrap64_sub_r, ?app_nil_r;
      repeat split; try reflexivity;
      intros c Hc; rewrite !upd_core_other by assumption; reflexivity)).
Qed.

(** Phase 2 of the teardown, from wherever phase 1 has left the world. *)
Lemma teardown_phase_2_run (w : World P) :
  let me := core (thr w) in
  let registry := cowns (cores w me) in
  let servicing := servicing_threads (cores w me) in
  state (thr w) <> ThreadState.ReallyDone_Confirm ->
  state (thr w) <> ThreadState.Finished ->
  registry_counted w ->
  exists w',
    teardown_phase_2 R w = Done tt w'
    /\ trace w'
       = trace w
         ++ EpochAdvance
         :: walk_events R true (heap w) (advance R (env w)) registry
         ++ (if servicing =? 1 then [QueueDestroy me] else [])
    /\ env w' = advance R (env w)
    /\ cowns (cores w' me)
       = retained R true (heap w) (advance R (env w)) registry
    /\ servicing_threads (cores w' me) = wrap64 (servicing - 1)
    /\ (forall k, k <> me -> cores w' k = cores w k)
    /\ thr w' = thr w.
Proof.
  intros me registry servicing Hrc Hfin Hcount.
  unfold teardown_phase_2, epoch_advance, this, emit, core_get, core_upd.
  mrun.
  set (w1 := with_event EpochAdvance _).
  pose proof (collect_cown_stubs_run true w1) as Hrun.
  assert (Hgo : ThreadState.eqb (state (thr w)) ThreadState.ReallyDone_Confirm
                || ThreadState.eqb (state (thr w)) ThreadState.Finished
                = false)
    by (destruct (state (thr w)); try reflexivity; congruence).
  subst w1. revert Hrun. mrun. rewrite Hgo. fold me.
  change (cowns (cores w me)) with registry.
  unfold registry_counted in Hcount. fold me in Hcount.
  change (cowns (cores w me)) with registry in Hcount.
  rewrite Hcount, Z.eqb_refl.
  intros (w2 & -> & Ht & Hh & He & Htr & Hother & Hme).
  mrun. rewrite Ht. fold me. fold me in Hme. unfold when.
  destruct (servicing_threads (cores w2 me) =? 1) eqn:Hlast; mrun;
    (eexists; split; [reflexivity|]); mrun;
    rewrite ?upd_core_same, Htr, Hme;
    cbn [cowns q servicing_threads set_servicing_threads set_total_cowns
         set_free_cowns set_cowns];
    rewrite Hme in Hlast;
    cbn [servicing_threads set_total_cowns set_free_cowns set_cowns]
      in Hlast;
    fold servicing in Hlast |- *; rewrite Hlast;
    rewrite <- ?app_assoc; cbn [app]; rewrite ?app_nil_r;
    repeat split; auto;
    intros k Hk; rewrite upd_core_other by assumption; now apply Hother.
Qed.

(** X10.  The teardown of [run_inner].  Phase 1 calls [core->collect],
    flushes the epoch and waits at the barrier; what these leave of the
    cores, the cowns and the state behind the interfaces is theirs, and the
    worker itself is as before.  In the world [w1] they leave, with the
    count of the registry right and outside the two LD states that inhibit
    stub collection, phase 2 advances the global epoch before the last stub
    collection, which judges each cown of the registry by the advanced
    epoch; the worker then leaves its core, and destroys the run queue of
    the core exactly when it was the last one servicing it. *)
Theorem teardown_sequence (w : World P) :
  let me := core (thr w) in
  let w1 := world_of (teardown_phase_1 R w) in
  let registry := cowns (cores w1 me) in
  let servicing := servicing_threads (cores w1 me) in
  state (thr w) <> ThreadState.ReallyDone_Confirm ->
  state (thr w) <> ThreadState.Finished ->
  registry_counted w1 ->
  (thr w1 = thr w
   /\ (cores w1, heap w1, env w1)
      = teardown_barrier R me (cores w) (heap w) (env w)
   /\ trace w1
      = trace w ++ [CoreCollect me; EpochFlushLocal; PoolEnterBarrier])
  /\ exists w',
      run_inner_teardown R w = Done tt w'
      /\ trace w'
         = trace w1
           ++ EpochAdvance
           :: walk_events R true (heap w1) (advance R (env w1)) registry
           ++ (if servicing =? 1 then [QueueDestroy me] else [])
      /\ env w' = advance R (env w1)
      /\ cowns (cores w' me)
         = retained R true (heap w1) (advance R (env w1)) registry
      /\ servicing_threads (cores w' me) = wrap64 (servicing - 1)
      /\ (forall k, k <> me -> cores w' k = cores w1 k)
      /\ thr w' = thr w.
Proof.
  intros me w1 registry servicing Hrc Hfin Hcount.
  assert (H1 : teardown_phase_1 R w = Done tt w1
               /\ thr w1 = thr w
               /\ (cores w1, heap w1, env w1)
                  = teardown_barrier R me (cores w) (heap w) (env w)
               /\ trace w1
                  = trace w
                    ++ [CoreCollect me; EpochFlushLocal; PoolEnterBarrier]).
  { subst w1 me. unfold teardown_phase_1, this, emit. mrun.
    destruct (teardown_barrier R (core (thr w)) (cores w) (heap w) (env w))
      as [[cs h] p].
    cbn [world_of thr cores heap env trace]. rewrite <- !app_assoc.
    repeat split. }
  destruct H1 as (Hrun1 & Ht1 & Hshared & Htr1).
  split; [repeat split; assumption|].
  destruct (teardown_phase_2_run w1) as (w' & Hrun2 & H2);
    rewrite ?Ht1; try assumption.
  exists w'. split.
  - unfold run_inner_teardown. cbn [bind]. rewrite Hrun1. exact Hrun2.
  - rewrite Ht1 in H2. fold me in H2. exact H2.
Qed.

(** X11.  A worker that holds a cown at the head of its loop goes on with
    that cown: [select] neither consumes the fairness flag, nor dequeues, nor
    steals.  All it may do is collect stubs, so the worker, the run queues,
    the cowns and the state behind the interfaces are as before, no fuel is
    used, and the only assertion that can fail is the one on
    [total_cowns]. *)
Theorem select_keeps_held_cown (fuel : nat) (cown : ptr) (w : World P) :
  is_null cown = false ->
  match select R fuel cown w with
  | Done c w' =>
      c = cown /\ thr w' = thr w /\ heap w' = heap w /\ env w' = env w
      /\ forall k, q (cores w' k) = q (cores w k)
  | Abort e w' => e = AssertTotalCowns
  | OutOfFuel _ => False
  end.
Proof.
  intros Hheld. unfold select, this, core_get, when. mrun.
  destruct (total_cowns (cores w (core (thr w)))
            <? wrap64 (Z.shiftl (free_cowns (cores w (core (thr w)))) 1)).
  - pose proof (collect_cown_stubs_run false w) as Hrun. revert Hrun. mrun.
    destruct (ThreadState.eqb (state (thr w)) ThreadState.ReallyDone_Confirm
              || ThreadState.eqb (state (thr w)) ThreadState.Finished).
    + intros ->. mrun. rewrite Hheld, andb_false_r. mrun.
      rewrite Hheld. mrun. rewrite Hheld. mrun. auto.
    + intros (w' & -> & Ht & Hh & He & _ & Hother & Hme).
      destruct (total_cowns (cores w (core (thr w))) =? _); mrun;
        [|reflexivity].
      rewrite Ht, Hheld, andb_false_r. mrun.
      rewrite Hheld. mrun. rewrite Hheld. mrun.
      repeat split; auto. intros k.
      destruct (Nat.eq_dec k (core (thr w))) as [->|Hk].
      * rewrite Hme. reflexivity.
      * now rewrite Hother.
  - mrun. rewrite Hheld, andb_false_r. mrun.
    rewrite Hheld. mrun. rewrite Hheld. mrun. auto.
Qed.

(** ** The count of the registry *)

Lemma counted_upd (w : World P) c (f : Core -> Core) :
  (forall k, total_cowns (f k) = total_cowns k /\ cowns (f k) = cowns k) ->
  registry_counted w ->
  registry_counted (with_cores (upd_core c f) w).
Proof.
  unfold registry_counted, upd_core. mrun. intros Hf Hw.
  destruct (Nat.eqb (core (thr w)) c); [|exact Hw].
  destruct (Hf (cores w (core (thr w)))) as [-> ->]. exact Hw.
Qed.

Ltac count_leaf :=
  let w := fresh "w" in
  let H := fresh "H" in
  intros w H;
  unfold_prims;
  mrun;
  repeat match goal with
         | |- context [let (_, _) := ?x in _] => destruct x
         | |- context [if ?b then _ else _] => destruct b
         end;
  mrun;
  try (split; [|exact I || discriminate]);
  first [ exact H
        | apply counted_upd; [intros k; split; reflexivity|exact H]
        | unfold registry_counted in *; mrun; thr_fields; exact H ].

Ltac count_auto := repeat (triple_step count_leaf).

Notation "'counts' m" :=
  (@triple P _ registry_counted m anything (fun e => e = AssertTotalCowns))
  (at level 10, m at level 9).

Lemma counts_out_of_fuel {A} : counts (@out_of_fuel P A).
Proof. intros w Hw. exact Hw. Qed.

#[local] Hint Resolve @counts_out_of_fuel : triple_db.

Lemma counts_q_dequeue c : counts (q_dequeue c).
Proof. unfold q_dequeue. count_auto. Qed.

Lemma counts_ld_state_change s : counts (ld_state_change s).
Proof. unfold ld_state_change. count_auto. Qed.

Lemma counts_enter_prescan : counts enter_prescan.
Proof. unfold enter_prescan. count_auto. Qed.

Lemma counts_enter_scan : counts enter_scan.
Proof. unfold enter_scan. count_auto. Qed.

#[local] Hint Resolve counts_q_dequeue counts_ld_state_change
  counts_enter_prescan counts_enter_scan : triple_db.

Lemma counts_ld_protocol_loop fuel : counts (ld_protocol_loop R fuel).
Proof.
  induction fuel as [|fuel IH]; cbn [ld_protocol_loop];
    unfold ld_transition_actions, collect_cowns; count_auto.
Qed.

#[local] Hint Resolve counts_ld_protocol_loop : triple_db.

Lemma counts_ld_protocol fuel : counts (ld_protocol R fuel).
Proof. unfold ld_protocol, ld_checkpoint_reached. count_auto. Qed.

#[local] Hint Resolve counts_ld_protocol : triple_db.

Lemma counts_steal_loop fuel : forall tsc, counts (steal_loop R fuel tsc).
Proof.
  induction fuel as [|fuel IH]; intros tsc; cbn [steal_loop]; count_auto.
Qed.

#[local] Hint Resolve counts_steal_loop : triple_db.

Lemma counts_steal fuel : counts (steal R fuel).
Proof. unfold steal. count_auto. Qed.

Lemma counts_schedule_fifo a : counts (schedule_fifo R a).
Proof. unfold schedule_fifo. count_auto. Qed.

Lemma counts_fast_steal : counts fast_steal.
Proof. unfold fast_steal. count_auto. Qed.

#[local] Hint Resolve counts_steal counts_schedule_fifo counts_fast_steal
  : triple_db.

(** The assertion of [collect_cown_stubs] holds when the count is right, and
    the run of the main loop leaves it right. *)
Lemma counts_collect_cown_stubs : counts (collect_cown_stubs R false).
Proof.
  intros w Hw. pose proof (collect_cown_stubs_run false w) as Hrun.
  revert Hrun. mrun.
  destruct (ThreadState.eqb (state (thr w)) ThreadState.ReallyDone_Confirm
            || ThreadState.eqb (state (thr w)) ThreadState.Finished).
  - intros ->. split; [exact Hw|exact I].
  - intros (w' & -> & Ht & _ & _ & _ & _ & Hme).
    unfold registry_counted in Hw. revert Hme. rewrite Hw, Z.eqb_refl.
    intros Hme. split; [|exact I].
    unfold registry_counted. rewrite Ht, Hme.
    cbn [total_cowns cowns set_total_cowns set_free_cowns set_cowns].
    rewrite retained_no_teardown, freed_no_teardown.
    unfold wrap64. rewrite Zminus_mod_idemp_l. f_equal.
    pose proof (filter_length (collectable R (heap w) (env w))
                  (cowns (cores w (core (thr w))))) as Hlen.
    lia.
Qed.

(** [prerun] counts the cown it registers. *)
Lemma counts_prerun cown : counts (prerun R cown).
Proof.
  unfold prerun. destruct (has_thread_bit cown).
  - unfold dec_n_ld_tokens. count_auto.
  - eapply triple_bind with (Q := anything); [count_auto|intros c _].
    eapply triple_bind with (Q := anything); [|intros _ _; count_auto].
    destruct (owning_core c); [count_auto|].
    intros w Hw. unfold core_add_cown. unfold_prims. mrun.
    split; [|exact I].
    unfold registry_counted in *. mrun. rewrite !upd_core_same.
    cbn [total_cowns cowns set_total_cowns set_cowns length].
    rewrite Hw, Nat2Z.inj_succ. unfold Z.succ, wrap64.
    now rewrite Zplus_mod_idemp_l.
Qed.

#[local] Hint Resolve counts_collect_cown_stubs counts_prerun : triple_db.

Lemma counts_dispatch fuel cown : counts (dispatch R fuel cown).
Proof. unfold dispatch, reschedule, cown_run. count_auto. Qed.

Lemma counts_select fuel cown : counts (select R fuel cown).
Proof. unfold select. count_auto. Qed.

#[local] Hint Resolve counts_dispatch counts_select : triple_db.

(** X12.  A turn of the main loop keeps the count of the registry right,
    however it ends, and with the count right the assertion of
    [collect_cown_stubs] on [total_cowns] does not fail in it: a cown is
    counted when [prerun] registers it, and stub collection takes off the
    count what it unlinks. *)
Theorem turn_counts_registry (fuel : nat) (cown : ptr) (w : World P) :
  registry_counted w ->
  registry_counted (world_of (turn R fuel cown w))
  /\ forall w', turn R fuel cown w <> Abort AssertTotalCowns w'.
Proof.
  intros Hw.
  assert (Hturn : counts (turn R fuel cown)) by (unfold turn; count_auto).
  specialize (Hturn w Hw).
  destruct (turn R fuel cown w) as [a w1|e w1|w1]; cbn [world_of].
  - split; [apply Hturn|discriminate].
  - split; [apply Hturn|]. intros w' [= -> _]. now apply (proj2 Hturn).
  - split; [assumption|discriminate].
Qed.

(** ** Deallocation *)

Lemma deallocated_snoc l e :
  deallocated (l ++ [e])
  = deallocated l ++ match e with CownDealloc c => [c] | _ => [] end.
Proof. unfold deallocated. rewrite flat_map_app. cbn. now rewrite app_nil_r. Qed.

Ltac quiet_leaf :=
  let w := fresh "w" in
  let H := fresh "H" in
  intros w H;
  unfold_prims;
  mrun;
  repeat match goal with
         | |- context [let (_, _) := ?x in _] => destruct x
         | |- context [if ?b then _ else _] => destruct b
         end;
  mrun;
  try (split; [|exact I || (intros [])]);
  mrun; rewrite ?deallocated_snoc, ?app_nil_r; exact H.

Ltac quiet_auto := repeat (triple_step quiet_leaf).

Notation "'frees_nothing' d m" :=
  (@triple P _ (fun w => deallocated (trace w) = d) m anything no_failure)
  (at level 10, d at level 9, m at level 9).

Lemma quiet_out_of_fuel {A} d : frees_nothing d (@out_of_fuel P A).
Proof. intros w Hw. exact Hw. Qed.

#[local] Hint Resolve @quiet_out_of_fuel : triple_db.

Lemma quiet_q_dequeue d c : frees_nothing d (q_dequeue c).
Proof. unfold q_dequeue. quiet_auto. Qed.

Lemma quiet_ld_state_change d s : frees_nothing d (ld_state_change s).
Proof. unfold ld_state_change. quiet_auto. Qed.

Lemma quiet_enter_prescan d : frees_nothing d enter_prescan.
Proof. unfold enter_prescan. quiet_auto. Qed.

Lemma quiet_enter_scan d : frees_nothing d enter_scan.
Proof. unfold enter_scan. quiet_auto. Qed.

#[local] Hint Resolve quiet_q_dequeue quiet_ld_state_change
  quiet_enter_prescan quiet_enter_scan : triple_db.

Lemma quiet_ld_protocol_loop d fuel : frees_nothing d (ld_protocol_loop R fuel).
Proof.
  induction fuel as [|fuel IH]; cbn [ld_protocol_loop];
    unfold ld_transition_actions, collect_cowns; quiet_auto.
Qed.

#[local] Hint Resolve quiet_ld_protocol_loop : triple_db.

Lemma quiet_ld_protocol d fuel : frees_nothing d (ld_protocol R fuel).
Proof. unfold ld_protocol, ld_checkpoint_reached. quiet_auto. Qed.

#[local] Hint Resolve quiet_ld_protocol : triple_db.

Lemma quiet_steal_loop d fuel :
  forall tsc, frees_nothing d (steal_loop R fuel tsc).
Proof.
  induction fuel as [|fuel IH]; intros tsc; cbn [steal_loop]; quiet_auto.
Qed.

#[local] Hint Resolve quiet_steal_loop : triple_db.

Lemma quiet_steal d fuel : frees_nothing d (steal R fuel).
Proof. unfold steal. quiet_auto. Qed.

Lemma quiet_schedule_fifo d a : frees_nothing d (schedule_fifo R a).
Proof. unfold schedule_fifo. quiet_auto. Qed.

Lemma quiet_fast_steal d : frees_nothing d fast_steal.
Proof. unfold fast_steal. quiet_auto. Qed.

#[local] Hint Resolve quiet_steal quiet_schedule_fifo quiet_fast_steal
  : triple_db.

Lemma quiet_dispatch d fuel cown : frees_nothing d (dispatch R fuel cown).
Proof.
  unfold dispatch, prerun, reschedule, dec_n_ld_tokens, core_add_cown,
    cown_run.
  quiet_auto.
Qed.

#[local] Hint Resolve quiet_dispatch : triple_db.

(** X13.  The worker calls [c->dealloc] itself in the stub walk and nowhere
    else: [dispatch] makes no such call, and a turn of the main loop makes
    none unless it finds [total_cowns] below twice [free_cowns] at its head,
    however the turn ends.  The trace has one [CownDealloc] for each such
    call; what [core->try_collect] or a behaviour frees inside its own code
    is no call of the worker, and is not counted here. *)
Theorem turn_frees_only_when_triggered (fuel : nat) (cown : ptr)
    (w : World P) :
  let me := core (thr w) in
  deallocated (trace (world_of (dispatch R fuel cown w)))
  = deallocated (trace w)
  /\ ((total_cowns (cores w me) <? wrap64 (Z.shiftl (free_cowns (cores w me)) 1))
      = false ->
      deallocated (trace (world_of (turn R fuel cown w)))
      = deallocated (trace w)).
Proof.
  intros me. split.
  - pose proof (quiet_dispatch _ fuel cown w eq_refl) as Hd.
    destruct (dispatch R fuel cown w); cbn [world_of]; apply Hd.
  - intros Htrigger.
    assert (Htail :
      frees_nothing (deallocated (trace w))
        (c <- (ssf <- this should_steal_for_fairness ;;
               c1 <- (if ssf && is_null cown then
                        update (set_should_steal_for_fairness false) ;;
                        stolen <- fast_steal ;;
                        ret (match stolen with Some s => s | None => cown end)
                      else ret cown) ;;
               c2 <- (if is_null c1 then q_dequeue me else ret c1) ;;
               if is_null c2 then steal R fuel else ret c2) ;;
         if is_null c then ret None
         else next_cown <- dispatch R fuel c ;; ret (Some next_cown)))
      by quiet_auto.
    specialize (Htail w eq_refl).
    assert (Hturn :
      turn R fuel cown w
      = (c <- (ssf <- this should_steal_for_fairness ;;
               c1 <- (if ssf && is_null cown then
                        update (set_should_steal_for_fairness false) ;;
                        stolen <- fast_steal ;;
                        ret (match stolen with Some s => s | None => cown end)
                      else ret cown) ;;
               c2 <- (if is_null c1 then q_dequeue me else ret c1) ;;
               if is_null c2 then steal R fuel else ret c2) ;;
         if is_null c then ret None
         else next_cown <- dispatch R fuel c ;; ret (Some next_cown)) w).
    { unfold turn, select, this, core_get, when. mrun. fold me.
      rewrite Htrigger. reflexivity. }
    rewrite Hturn.
    match goal with
    | |- deallocated (trace (world_of ?o)) = _ =>
        destruct o; cbn [world_of]; apply Htail
    end.
Qed.

(** X14.  A stopped worker with nothing at hand leaves its loop: with no
    cown held, no stub collection due, the fairness flag down and its run
    queue empty, the turn reads the clock and breaks.  It takes no part in
    the LD protocol, does not look at the queue of its victim and does not
    pause. *)
Theorem stopped_worker_leaves (fuel : nat) (w : World P) :
  let me := core (thr w) in
  running (thr w) = false ->
  (total_cowns (cores w me) <? wrap64 (Z.shiftl (free_cowns (cores w me)) 1))
  = false ->
  should_steal_for_fairness (thr w) = false ->
  q (cores w me) = [] ->
  turn R (S fuel) nullptr w
  = Done None
      (with_event (AalTick (wrap64 (fst (tick R (env w)))))
                  (with_env (snd (tick R (env w))) w)).
Proof.
  intros me Hstopped Htrigger Hflag Hq.
  unfold turn, select, steal, this, core_get, when, q_dequeue, aal_tick.
  mrun. fold me. rewrite Htrigger. mrun. rewrite Hflag. mrun.
  change (is_null nullptr) with true. cbn iota. unfold core_get. mrun.
  fold me. rewrite Hq. mrun. change (is_null nullptr) with true. cbn iota.
  mrun. destruct (tick R (env w)) as [t p]. cbn [steal_loop fst snd].
  unfold this. mrun. rewrite Hstopped. reflexivity.
Qed.

(** X15.  The reply of [ld_protocol] to the pool.  When the pool moves the
    worker to [BelieveDone], the worker at once retracts if it has scheduled
    an unscanned cown and confirms if not, and goes on asking the pool; when
    the pool moves it to [Sweep], the worker has its core collect with the
    current send epoch, and goes on. *)
Theorem ld_protocol_loop_replies (fuel : nat) (w : World P) snext p :
  let s := state (thr w) in
  next_state R s (env w) = (snext, p) ->
  ThreadState.eqb snext s = false ->
  (snext = ThreadState.BelieveDone ->
   let reply := if scheduled_unscanned_cown (thr w)
                then ThreadState.BelieveDone_Retract
                else ThreadState.BelieveDone_Confirm in
   ld_protocol_loop R (S fuel) w
   = ld_protocol_loop R fuel
       (with_events
          [PoolNextState s ThreadState.BelieveDone;
           Logged (SchedulerStateChange s ThreadState.BelieveDone);
           Logged (SchedulerStateChange ThreadState.BelieveDone reply)]
          (with_thr (set_state reply) (with_env p w))))
  /\ (snext = ThreadState.Sweep ->
      ld_protocol_loop R (S fuel) w
      = ld_protocol_loop R fuel
          (with_events
             [PoolNextState s ThreadState.Sweep;
              Logged (SchedulerStateChange s ThreadState.Sweep);
              CoreTryCollect (core (thr w)) (send_epoch (thr w))]
             (with_thr (set_state ThreadState.Sweep) (with_env p w)))).
Proof.
  intros s Hnext Hmoves.
  rewrite (ld_protocol_loop_moves fuel w snext p Hnext Hmoves).
  unfold ld_state_change, ld_transition_actions, collect_cowns, this, update,
    log, emit, with_events.
  split; intros ->; mrun; thr_fields; mrun; thr_fields.
  - destruct (scheduled_unscanned_cown (thr w));
      unfold ld_state_change, this, update, log, emit; mrun; thr_fields;
      f_equal; unfold with_thr, with_event, with_env;
      cbn [thr cores heap env trace]; rewrite <- !app_assoc; reflexivity.
  - f_equal. unfold with_thr, with_event, with_env.
    cbn [thr cores heap env trace]. rewrite <- !app_assoc. reflexivity.
Qed.

(** ** Progress counters *)

(** The LD protocol is a matter between the worker and the pool: it leaves
    the cores and the cowns alone, and the worker on its core. *)
Notation "'aside' cs h me id m" :=
  (@triple P _ (fun w => cores w = cs /\ heap w = h /\ core (thr w) = me
                         /\ systematic_id (thr w) = id)
           m anything no_failure)
  (at level 10, cs at level 9, h at level 9, me at level 9, id at level 9,
   m at level 9).

Ltac aside_leaf :=
  let w := fresh "w" in
  let H := fresh "H" in
  intros w H;
  unfold_prims;
  mrun;
  repeat match goal with
         | |- context [let (_, _) := ?x in _] => destruct x
         | |- context [if ?b then _ else _] => destruct b
         end;
  mrun; thr_fields;
  try (split; [|exact I || (intros [])]);
  mrun; thr_fields; exact H.

Ltac aside_auto := repeat (triple_step aside_leaf).

Lemma aside_out_of_fuel {A} cs h me id : aside cs h me id (@out_of_fuel P A).
Proof. intros w Hw. exact Hw. Qed.

#[local] Hint Resolve @aside_out_of_fuel : triple_db.

Lemma aside_ld_state_change cs h me id s :
  aside cs h me id (ld_state_change s).
Proof. unfold ld_state_change. aside_auto. Qed.

Lemma aside_enter_prescan cs h me id : aside cs h me id enter_prescan.
Proof. unfold enter_prescan. aside_auto. Qed.

Lemma aside_enter_scan cs h me id : aside cs h me id enter_scan.
Proof. unfold enter_scan. aside_auto. Qed.

#[local] Hint Resolve aside_ld_state_change aside_enter_prescan
  aside_enter_scan : triple_db.

Lemma aside_ld_protocol_loop cs h me id fuel :
  aside cs h me id (ld_protocol_loop R fuel).
Proof.
  induction fuel as [|fuel IH]; cbn [ld_protocol_loop];
    unfold ld_transition_actions, collect_cowns; aside_auto.
Qed.

#[local] Hint Resolve aside_ld_protocol_loop : triple_db.

Lemma aside_ld_protocol cs h me id fuel :
  aside cs h me id (ld_protocol R fuel).
Proof. unfold ld_protocol, ld_checkpoint_reached. aside_auto. Qed.

(** Rescheduling moves cowns between queues and leaves the progress
    counters and the last worker of every core alone. *)
Notation "'idles' pc lw m" :=
  (@triple P _ (fun w => forall k, progress_counter (cores w k) = pc k
                                   /\ last_worker (cores w k) = lw k)
           m anything no_failure)
  (at level 10, pc at level 9, lw at level 9, m at level 9).

Lemma idles_upd (w : World P) c (f : Core -> Core) pc lw :
  (forall k, progress_counter (f k) = progress_counter k
             /\ last_worker (f k) = last_worker k) ->
  (forall k, progress_counter (cores w k) = pc k
             /\ last_worker (cores w k) = lw k) ->
  forall k, progress_counter (cores (with_cores (upd_core c f) w) k) = pc k
            /\ last_worker (cores (with_cores (upd_core c f) w) k) = lw k.
Proof.
  unfold upd_core. mrun. intros Hf Hw k.
  destruct (Nat.eqb k c); [|apply Hw].
  destruct (Hf (cores w k)) as [-> ->]. apply Hw.
Qed.

Ltac idles_leaf :=
  let w := fresh "w" in
  let H := fresh "H" in
  intros w H;
  unfold_prims;
  mrun;
  repeat match goal with
         | |- context [let (_, _) := ?x in _] => destruct x
         | |- context [if ?b then _ else _] => destruct b
         end;
  mrun;
  try (split; [|exact I || (intros [])]);
  first [ exact H
        | apply idles_upd; [intros k; split; reflexivity|exact H] ].

Ltac idles_auto := repeat (triple_step idles_leaf).

Lemma idles_q_dequeue pc lw c : idles pc lw (q_dequeue c).
Proof. unfold q_dequeue. idles_auto. Qed.

Lemma idles_schedule_fifo pc lw a : idles pc lw (schedule_fifo R a).
Proof. unfold schedule_fifo. idles_auto. Qed.

#[local] Hint Resolve idles_q_dequeue idles_schedule_fifo : triple_db.

Lemma idles_fast_steal pc lw : idles pc lw fast_steal.
Proof. unfold fast_steal. idles_auto. Qed.

#[local] Hint Resolve idles_fast_steal : triple_db.

Lemma idles_reschedule pc lw cown : idles pc lw (reschedule R cown).
Proof. unfold reschedule. idles_auto. Qed.

(** [dispatch] once [prerun] has answered [true], on a cown that has its
    owner. *)
Lemma dispatch_tail_progress (fuel : nat) (cown next_cown : ptr)
    (owner : CoreId) (w w' : World P) :
  let me := core (thr w) in
  owning_core (heap w cown) = Some owner ->
  (scan <- pool_should_scan R ;;
   c <- deref cown ;;
   se <- this send_epoch ;;
   when (scan && negb (EpochMark_eqb (epoch_mark c) se))
        (update (set_scheduled_unscanned_cown true)) ;;
   ld_protocol R fuel ;;
   c <- deref cown ;;
   me <- this core ;;
   let cown_core := owning_core c in
   match cown_core with
   | Some cc =>
       core_upd cc (fun k => set_progress_counter
                               (wrap64 (progress_counter k + 1)) k)
   | None => ret tt
   end ;;
   when (negb (match cown_core with
               | Some cc => Nat.eqb cc me
               | None => false
               end))
        (core_upd me (fun k => set_progress_counter
                                 (wrap64 (progress_counter k + 1)) k)) ;;
   id <- this systematic_id ;;
   core_upd me (set_last_worker id) ;;
   st <- this state ;;
   resched <- cown_run R cown st ;;
   next_cown <- (if resched then reschedule R cown else ret nullptr) ;;
   yield ;;
   ret next_cown) w = Done next_cown w' ->
  forall k,
    progress_counter (cores w' k)
    = (if Nat.eqb k owner || Nat.eqb k me
       then wrap64 (progress_counter (cores w k) + 1)
       else progress_counter (cores w k))
    /\ last_worker (cores w' k)
       = (if Nat.eqb k me then systematic_id (thr w)
          else last_worker (cores w k)).
Proof.
  intros me Howner.
  unfold pool_should_scan, deref, this, update, when. mrun.
  set (w1 := (if should_scan R (env w)
                 && negb (EpochMark_eqb (epoch_mark (heap w cown))
                            (send_epoch (thr w)))
              then modify (with_thr (set_scheduled_unscanned_cown true))
              else ret tt) w).
  assert (Hw1 : exists w2, w1 = Done tt w2
                           /\ cores w2 = cores w /\ heap w2 = heap w
                           /\ core (thr w2) = me
                           /\ systematic_id (thr w2) = systematic_id (thr w)).
  { subst w1. destruct (should_scan R (env w) && _); mrun;
      eexists; repeat split. }
  destruct Hw1 as (w2 & -> & Hc2 & Hh2 & Hme2 & Hid2).
  pose proof (aside_ld_protocol _ _ _ _ fuel w2
                (conj Hc2 (conj Hh2 (conj Hme2 Hid2)))) as Hld.
  destruct (ld_protocol R fuel w2) as [[] w3|e w3|w3]; try discriminate.
  destruct Hld as [(Hc3 & Hh3 & Hme3 & Hid3) _].
  mrun. rewrite Hh3, Howner. unfold core_upd. mrun.
  rewrite Hme3.
  set (pc := fun k => if Nat.eqb k owner || Nat.eqb k me
                      then wrap64 (progress_counter (cores w k) + 1)
                      else progress_counter (cores w k)).
  set (lw := fun k => if Nat.eqb k me then systematic_id (thr w)
                      else last_worker (cores w k)).
  destruct (Nat.eqb owner me) eqn:Hom; cbn [negb]; mrun; rewrite Hid3;
    unfold cown_run, yield; mrun;
    destruct (run R cown _ _) as [b p]; mrun;
    match goal with
    | |- context [(if b then reschedule R cown else ret nullptr) ?W] =>
        assert (Hpre : forall k, progress_counter (cores W k) = pc k
                                 /\ last_worker (cores W k) = lw k)
    end;
    try (intros k; subst pc lw; mrun; unfold upd_core; rewrite Hc3;
         cbn beta;
         destruct (Nat.eqb k me) eqn:Hkm; destruct (Nat.eqb k owner) eqn:Hko;
         cbn; auto;
         apply Nat.eqb_eq in Hkm || apply Nat.eqb_neq in Hkm;
         apply Nat.eqb_eq in Hko || apply Nat.eqb_neq in Hko;
         apply Nat.eqb_eq in Hom || apply Nat.eqb_neq in Hom;
         congruence);
    (destruct b;
     [ match goal with
       | |- context [reschedule R cown ?W] =>
           pose proof (idles_reschedule pc lw cown W Hpre) as Hre;
           destruct (reschedule R cown W); try discriminate;
           intros [= <- <-]; apply Hre
       end
     | mrun; intros [= <- <-]; exact Hpre ]).
Qed.

(** X16.  Running a cown counts as progress.  When [dispatch] returns from
    a cown without the thread bit, the progress counter of the core that
    owns the cown has gone up by one, and so has that of the worker's core
    when it is another one; the worker's core has the worker as its last
    one.  The owner is the one [prerun] found or bound, so the cown always
    has one by then.  The LD protocol and the rescheduling in between touch
    neither counter. *)
Theorem dispatch_counts_progress (fuel : nat) (cown next_cown : ptr)
    (w w' : World P) :
  let me := core (thr w) in
  let owner := match owning_core (heap w cown) with
               | Some o => o
               | None => me
               end in
  has_thread_bit cown = false ->
  dispatch R fuel cown w = Done next_cown w' ->
  forall k,
    progress_counter (cores w' k)
    = (if Nat.eqb k owner || Nat.eqb k me
       then wrap64 (progress_counter (cores w k) + 1)
       else progress_counter (cores w k))
    /\ last_worker (cores w' k)
       = (if Nat.eqb k me then systematic_id (thr w)
          else last_worker (cores w k)).
Proof.
  intros me owner Hbit Hrun.
  assert (Hpre : exists w1,
             prerun R cown w = Done true w1
             /\ owning_core (heap w1 cown) = Some owner
             /\ thr w1 = thr w
             /\ forall k, progress_counter (cores w1 k)
                          = progress_counter (cores w k)
                          /\ last_worker (cores w1 k)
                             = last_worker (cores w k)).
  { unfold prerun. rewrite Hbit. unfold deref, this, core_add_cown, core_upd.
    mrun. subst owner.
    destruct (owning_core (heap w cown)) as [o|] eqn:Ho; mrun.
    - exists w. rewrite Ho. auto.
    - eexists. split; [reflexivity|]. mrun. unfold upd_heap.
      rewrite Z.eqb_refl. split; [reflexivity|]. split; [reflexivity|].
      intros k. unfold upd_core. destruct (Nat.eqb k (core (thr w)));
        split; reflexivity. }
  destruct Hpre as (w1 & Hprerun & Howner & Ht & Hsame).
  unfold dispatch in Hrun. unfold bind at 1 in Hrun.
  rewrite Hprerun in Hrun. cbn [negb] in Hrun.
  intros k.
  destruct (dispatch_tail_progress fuel cown next_cown owner w1 w' Howner
              Hrun k) as [Hpc Hlw].
  rewrite Hpc, Hlw, Ht. fold me.
  destruct (Hsame k) as [-> ->]. split; reflexivity.
Qed.

(** ** The unscanned flag *)

Lemma scan_lines_snoc l e :
  scan_lines (l ++ [e])
  = (scan_lines l
     + match e with Logged (SendEpoch2 _) => 1 | _ => 0 end)%nat.
Proof.
  unfold scan_lines. rewrite filter_app, length_app. cbn [filter].
  destruct e as [| | | | | | | | | | | | | | |[]]; reflexivity.
Qed.

Ltac sticky_leaf :=
  let w := fresh "w" in
  let H := fresh "H" in
  intros w H;
  unfold_prims;
  mrun;
  repeat match goal with
         | |- context [let (_, _) := ?x in _] => destruct x
         | |- context [if ?b then _ else _] => destruct b
         end;
  mrun;
  try (split; [|exact I || (intros [])]);
  try exact H;
  unfold unscanned_since in *; mrun; thr_fields;
  rewrite ?scan_lines_snoc; cbn [Nat.add];
  (destruct H as [[? ?]|?]; [left; split; auto; lia|right; lia]).

Ltac sticky_auto := repeat (triple_step sticky_leaf).

Notation "'remembers' n m" :=
  (@triple P _ (unscanned_since n) m anything no_failure)
  (at level 10, n at level 9, m at level 9).

Lemma sticky_out_of_fuel {A} n : remembers n (@out_of_fuel P A).
Proof. intros w Hw. exact Hw. Qed.

#[local] Hint Resolve @sticky_out_of_fuel : triple_db.

Lemma sticky_q_dequeue n c : remembers n (q_dequeue c).
Proof. unfold q_dequeue. sticky_auto. Qed.

Lemma sticky_ld_state_change n s : remembers n (ld_state_change s).
Proof. unfold ld_state_change. sticky_auto. Qed.

Lemma sticky_enter_prescan n : remembers n enter_prescan.
Proof. unfold enter_prescan. sticky_auto. Qed.

(** [enter_scan] clears the flag, and writes the line. *)
Lemma sticky_enter_scan n : remembers n enter_scan.
Proof.
  intros w Hw. unfold enter_scan. unfold_prims. mrun. split; [|exact I].
  right. mrun. rewrite !scan_lines_snoc. cbn [Nat.add].
  destruct Hw as [[_ Hn]|Hn]; lia.
Qed.

#[local] Hint Resolve sticky_q_dequeue sticky_ld_state_change
  sticky_enter_prescan sticky_enter_scan : triple_db.

Lemma sticky_ld_protocol_loop n fuel : remembers n (ld_protocol_loop R fuel).
Proof.
  induction fuel as [|fuel IH]; cbn [ld_protocol_loop];
    unfold ld_transition_actions, collect_cowns; sticky_auto.
Qed.

#[local] Hint Resolve sticky_ld_protocol_loop : triple_db.

Lemma sticky_ld_protocol n fuel : remembers n (ld_protocol R fuel).
Proof. unfold ld_protocol, ld_checkpoint_reached. sticky_auto. Qed.

#[local] Hint Resolve sticky_ld_protocol : triple_db.

Lemma sticky_steal_loop n fuel :
  forall tsc, remembers n (steal_loop R fuel tsc).
Proof.
  induction fuel as [|fuel IH]; intros tsc; cbn [steal_loop]; sticky_auto.
Qed.

#[local] Hint Resolve sticky_steal_loop : triple_db.

Lemma sticky_stub_walk n dt chain :
  forall rc cnt, remembers n (stub_walk R dt chain rc cnt).
Proof.
  induction chain as [|c rest IH]; intros rc cnt; cbn [stub_walk];
    sticky_auto.
Qed.

#[local] Hint Resolve sticky_stub_walk : triple_db.

Lemma sticky_schedule_fifo n a : remembers n (schedule_fifo R a).
Proof. unfold schedule_fifo. sticky_auto. Qed.

Lemma sticky_fast_steal n : remembers n fast_steal.
Proof. unfold fast_steal. sticky_auto. Qed.

#[local] Hint Resolve sticky_schedule_fifo sticky_fast_steal : triple_db.

Lemma sticky_turn n fuel cown : remembers n (turn R fuel cown).
Proof.
  unfold turn, select, steal, collect_cown_stubs, core_drain, core_add_cowns,
    dispatch, prerun, reschedule, dec_n_ld_tokens, core_add_cown, cown_run.
  sticky_auto.
Qed.

(** X17.  The unscanned flag is sticky.  Once the worker has scheduled an
    unscanned cown, a turn of its loop leaves [scheduled_unscanned_cown] up
    unless it starts a scan, which [enter_scan] alone does and logs; the same
    holds when another thread schedules a cown on the worker or asks it for a
    leak detection.  So until its next scan the worker cannot vote that it
    is done. *)
Theorem unscanned_flag_sticky (w : World P) :
  scheduled_unscanned_cown (thr w) = true ->
  (forall fuel cown,
      let w' := world_of (turn R fuel cown w) in
      scheduled_unscanned_cown (thr w') = true
      \/ (scan_lines (trace w) < scan_lines (trace w'))%nat)
  /\ (forall m w',
         called_from_outside R m -> m w = Done tt w' ->
         scheduled_unscanned_cown (thr w') = true
         /\ scan_lines (trace w') = scan_lines (trace w)).
Proof.
  intros Hflag. split.
  - intros fuel cown w'.
    pose proof (sticky_turn (scan_lines (trace w)) fuel cown w
                  (or_introl (conj Hflag eq_refl))) as Hturn.
    subst w'.
    assert (Hw' : unscanned_since (scan_lines (trace w))
                    (world_of (turn R fuel cown w)))
      by (destruct (turn R fuel cown w); cbn [world_of]; apply Hturn).
    destruct Hw' as [[Hf _]|Hn]; [left; exact Hf|right; exact Hn].
  - intros m w' Hm.
    destruct Hm as [a|c a| |];
      unfold schedule_fifo, schedule_lifo, want_ld, ld_state_change, stop,
        when, q_enqueue, q_enqueue_front;
      repeat (unfold_prims; mrun; thr_fields;
              try match goal with
                  | |- context [let (_, _) := ?x in _] => destruct x
                  | |- context [if ?b then _ else _] => destruct b
                  end);
      try discriminate; intros [= <-]; mrun; thr_fields;
      rewrite ?scan_lines_snoc, ?Nat.add_0_r; auto.
Qed.

End Properties.

(** * The properties at work on the demo runtime *)

(** The first turn of the worker of core 0 pops cown 16, runs it, finds its
    own token behind it in the queue, puts the cown back and goes on with the
    token; the second turn sees the token, asks for a fairness steal and
    puts the token back. *)
Example demo_first_turns :
  let w1 := snd (Demo.after_turns Demo.fair_idle 1) in
  let w2 := snd (Demo.after_turns Demo.fair_idle 2) in
  fst (Demo.after_turns Demo.fair_idle 1) = 33
  /\ q (cores w1 0%nat) = [16]
  /\ deallocated (trace w1) = []
  /\ filter (fun e => negb (run_untagged e)) (trace w1) = []
  /\ fst (Demo.after_turns Demo.fair_idle 2) = nullptr
  /\ q (cores w2 0%nat) = [16; 33]
  /\ should_steal_for_fairness (thr w2) = true
  /\ trace w2 = [PoolNextState ThreadState.NotInLD ThreadState.NotInLD;
                 CownRun 16 ThreadState.NotInLD; PoolUnpause false].
Proof. cbv. repeat split; reflexivity. Qed.

(** A token of another core goes back to that core and leaves the worker as
    it was. *)
Example demo_stolen_token :
  let w := Demo.world ThreadState.NotInLD 2 false in
  let w' := world_of (prerun Demo.fair_idle 65 w) in
  prerun Demo.fair_idle 65 w = Done false w'
  /\ thr w' = thr w
  /\ q (cores w' 1%nat) = [48; 65]
  /\ q (cores w' 0%nat) = [16; 33].
Proof. cbv. repeat split; reflexivity. Qed.

(** With nothing to run anywhere, an idle worker spins for one timestamp,
    then parks; a worker in [Scan] goes on spinning. *)
Example demo_steal :
  let nowhere := fun _ : CoreId => mkCore [] [] 0 0 0 0 0 0 0%nat in
  let idle_worker :=
    mkWorld (Demo.worker ThreadState.NotInLD 0 false) nowhere Demo.heap
            Demo.outside [] in
  let scanning_worker :=
    mkWorld (Demo.worker ThreadState.Scan 0 false) nowhere Demo.heap
            Demo.outside [] in
  trace (world_of (steal Demo.fair_idle 4 idle_worker))
  = [AalTick 0;
     PoolNextState ThreadState.NotInLD ThreadState.NotInLD;
     AalTick 600000; AalPause;
     PoolNextState ThreadState.NotInLD ThreadState.NotInLD;
     AalTick 1200000; PoolPause false;
     PoolNextState ThreadState.NotInLD ThreadState.NotInLD;
     AalTick 1800000; PoolPause false]
  /\ trace (world_of (steal Demo.fair_idle 4 scanning_worker))
     = [AalTick 0;
        PoolNextState ThreadState.Scan ThreadState.Scan;
        AalTick 600000; AalPause;
        PoolNextState ThreadState.Scan ThreadState.Scan;
        AalTick 1200000;
        PoolNextState ThreadState.Scan ThreadState.Scan;
        AalTick 1800000].
Proof. cbv. split; reflexivity. Qed.

Lemma demo_reachable (rt : Runtime Demo.Outside) (n : nat) :
  reachable rt (fst (Demo.after_turns rt n)) (snd (Demo.after_turns rt n)).
Proof.
  induction n as [|n IH]; cbn [Demo.after_turns].
  - apply (reach_start rt 7 0%nat Demo.cores Demo.heap Demo.outside).
    reflexivity.
  - destruct (Demo.after_turns rt n) as [c w]. cbn [fst snd] in IH.
    destruct (turn rt 3 c w) as [[c'|] w'|e w'|w'] eqn:Hturn;
      cbn [fst snd]; try assumption.
    exact (reach_turn rt 3 c w c' w' IH Hturn).
Defined.

Lemma collect_cown_stubs_collects_witness :
  exists w',
    collect_cown_stubs Demo.fair_idle false
                       (Demo.world ThreadState.NotInLD 0 false)
    = Done tt w'
    /\ cowns (cores w' 0%nat) = [24]
    /\ trace w' = [CownDealloc 16]
    /\ free_cowns (cores w' 0%nat) = 0
    /\ total_cowns (cores w' 0%nat) = 1.
Proof.
  destruct (collect_cown_stubs_collects
              Demo.fair_idle (Demo.world ThreadState.NotInLD 0 false))
    as (w' & Hrun & Hreg & Htr & Hfree & Htotal & _);
    [discriminate|discriminate|reflexivity|].
  exists w'. repeat split; assumption.
Defined.

(** In the state [Finished] cown 16, with weak count zero and never popped, is
    neither unlinked nor deallocated by a run that is not the teardown one. *)
Lemma collect_cown_stubs_counterexample :
  let w := Demo.world ThreadState.Finished 0 false in
  let w' := world_of (collect_cown_stubs Demo.fair_idle false w) in
  In 16 (cowns (cores w 0%nat))
  /\ weak_count (heap w 16) = 0
  /\ epoch_when_popped (heap w 16) = NO_EPOCH_SET Demo.fair_idle
  /\ In 16 (cowns (cores w' 0%nat))
  /\ deallocated (trace w') = [].
Proof.
  cbn. repeat split; auto.
Qed.

Lemma collect_cown_stubs_inhibited_witness :
  collect_cown_stubs Demo.fair_idle true
                     (Demo.world ThreadState.Finished 0 false)
  = Done tt (Demo.world ThreadState.Finished 0 false).
Proof.
  apply collect_cown_stubs_inhibited. right. reflexivity.
Defined.

Lemma tokens_never_run_witness :
  let w := snd (Demo.after_turns Demo.fair_ld_round 8) in
  (forall w', prerun Demo.fair_ld_round 33 w <> Done true w')
  /\ forallb run_untagged
             (trace (world_of (turn Demo.fair_ld_round 3 nullptr w)))
     = true.
Proof.
  split.
  - apply (proj1 (tokens_never_run Demo.fair_ld_round) 33). reflexivity.
  - apply (proj2 (tokens_never_run Demo.fair_ld_round) nullptr
                 (snd (Demo.after_turns Demo.fair_ld_round 8))
                 (demo_reachable Demo.fair_ld_round 8)).
Defined.

Lemma prerun_token_witness :
  exists w',
    prerun Demo.fair_idle 33 (Demo.world ThreadState.NotInLD 2 false)
    = Done false w'
    /\ should_steal_for_fairness (thr w') = true
    /\ n_ld_tokens (thr w') = 1
    /\ q (cores w' 0%nat) = [16; 33; 33].
Proof.
  destruct (prerun_token Demo.fair_idle 33 0%nat
                         (Demo.world ThreadState.NotInLD 2 false))
    as (w' & Hrun & Hssf & Hn & Hq & _);
    [reflexivity|reflexivity|discriminate|].
  exists w'. repeat split; assumption.
Defined.

Lemma reschedule_policy_witness :
  exists w',
    reschedule Demo.fair_idle 24 (Demo.world ThreadState.NotInLD 2 false)
    = Done 16 w'
    /\ q (cores w' 0%nat) = [33; 24]
    /\ n_ld_tokens (thr w') = 2.
Proof.
  destruct (reschedule_policy Demo.fair_idle 24
                              (Demo.world ThreadState.NotInLD 2 false))
    as (w' & Hrun & Hq & Hn & _); [reflexivity|].
  exists w'. repeat split; assumption.
Defined.

Lemma demo_orderly : orderly Demo.fair_ld_round.
Proof. intros p. right. left. reflexivity. Defined.



Lemma entering_scan_witness :
  exists w',
    ld_protocol_loop (Demo.runtime true false Demo.scan_now) 1
                     (Demo.world ThreadState.NotInLD 0 false)
    = Done tt w'
    /\ state (thr w') = ThreadState.Scan
    /\ prev_epoch (thr w') = EPOCH_A
    /\ send_epoch (thr w') = EPOCH_B
    /\ n_ld_tokens (thr w') = 2
    /\ scheduled_unscanned_cown (thr w') = false.
Proof.
  destruct (proj2 (entering_scan (Demo.runtime true false Demo.scan_now))
                  0%nat (Demo.world ThreadState.NotInLD 0 false))
    as (w' & Hrun & Hst & Hprev & Hsend & Hn & Hu & _);
    [reflexivity|discriminate|].
  exists w'. rewrite Hprev in Hsend. repeat split; assumption.
Defined.

Lemma ld_tokens_bounded_witness :
  let n := n_ld_tokens
             (thr (world_of (turn Demo.fair_ld_round 3 nullptr
                                  (snd (Demo.after_turns Demo.fair_ld_round
                                                         8))))) in
  n = 0 \/ n = 1 \/ n = 2.
Proof.
  apply (proj2 (proj2 (ld_tokens_bounded
                         Demo.fair_ld_round nullptr
                         (snd (Demo.after_turns Demo.fair_ld_round 8))
                         (demo_reachable Demo.fair_ld_round 8))) 3%nat).
Defined.

(** ** The further properties on the demo runtime *)

(** Cown 48 belongs to nobody: the worker of core 0 takes it in. *)
Lemma prerun_registers_witness :
  exists w',
    prerun Demo.fair_idle 48 (Demo.world ThreadState.NotInLD 0 false)
    = Done true w'
    /\ owning_core (heap w' 48) = Some 0%nat
    /\ cowns (cores w' 0%nat) = [48; 16; 24]
    /\ total_cowns (cores w' 0%nat) = 3.
Proof.
  destruct (prerun_registers Demo.fair_idle 48
              (Demo.world ThreadState.NotInLD 0 false) eq_refl)
    as (w' & Hrun & _ & _ & _ & _ & Howner & Hcowns & Htotal & _).
  exists w'. repeat split; assumption.
Defined.

(** A worker in [PreScan] that the pool leaves there only signals. *)
Lemma ld_protocol_loop_stationary_witness :
  exists w',
    ld_protocol_loop Demo.fair_idle 1
                     (Demo.world ThreadState.PreScan 0 false)
    = Done tt w'
    /\ thr w' = Demo.worker ThreadState.PreScan 0 false
    /\ trace w' = [PoolNextState ThreadState.PreScan ThreadState.PreScan;
                   PoolUnpause false].
Proof.
  destruct (ld_protocol_loop_stationary
              Demo.fair_idle 0 (Demo.world ThreadState.PreScan 0 false)
              eq_refl)
    as (w' & Hrun & Ht & _ & _ & Htr & _).
  exists w'. repeat split; assumption.
Defined.

Lemma ld_protocol_loop_catches_up_witness :
  let rt := Demo.runtime true false Demo.ld_round in
  let w := Demo.world ThreadState.NotInLD 0 false in
  let w' := world_of (ld_protocol_loop rt 3 w) in
  state (thr w') = ThreadState.PreScan
  /\ exists before cur after,
      trace w' = trace w ++ before
                 ++ PoolNextState cur (state (thr w')) :: after
      /\ forallb (fun e => negb (is_pool_answer e)) after = true.
Proof.
  split; [reflexivity|].
  exact (ld_protocol_loop_catches_up
           (Demo.runtime true false Demo.ld_round) 3
           (Demo.world ThreadState.NotInLD 0 false)
           (world_of (ld_protocol_loop
                        (Demo.runtime true false Demo.ld_round) 3
                        (Demo.world ThreadState.NotInLD 0 false)))
           eq_refl).
Defined.

(** A worker with nothing to run anywhere is stopped while it is paused,
    finds out when it wakes, and leaves its loop. *)
Lemma run_loop_ends_stopped_witness :
  let rt := Demo.runtime_until (fun o => 1800000 <=? Demo.clock o)
                               true false Demo.idle in
  let nowhere := fun _ : CoreId => mkCore [] [] 0 0 0 0 0 0 0%nat in
  let w := mkWorld (Demo.worker ThreadState.NotInLD 0 false) nowhere
                   Demo.heap Demo.outside [] in
  running (thr w) = true
  /\ exists w',
      run_loop rt 6 nullptr w = Done tt w'
      /\ running (thr w') = false
      /\ trace w'
         = [AalTick 0; PoolNextState ThreadState.NotInLD ThreadState.NotInLD;
            AalTick 600000; AalPause;
            PoolNextState ThreadState.NotInLD ThreadState.NotInLD;
            AalTick 1200000; PoolPause false].
Proof.
  split; [reflexivity|].
  eexists. split; [vm_compute; reflexivity|].
  split; [|reflexivity].
  refine (proj1 (run_loop_ends_stopped
                   (Demo.runtime_until (fun o => 1800000 <=? Demo.clock o)
                                       true false Demo.idle)
                   6 nullptr
                   (mkWorld (Demo.worker ThreadState.NotInLD 0 false)
                            (fun _ : CoreId => mkCore [] [] 0 0 0 0 0 0 0%nat)
                            Demo.heap Demo.outside []))
                _ _).
  vm_compute. reflexivity.
Defined.

(** The teardown of the worker of core 0, right after its start: both of its
    cowns are outdated once the epoch has advanced, and the worker is the
    last one of its core. *)
Lemma teardown_sequence_witness :
  exists w',
    run_inner_teardown Demo.fair_idle Demo.started = Done tt w'
    /\ trace w' = [CoreCollect 0%nat; EpochFlushLocal; PoolEnterBarrier;
                   EpochAdvance; CownDealloc 16; Logged (LeakingCown 24);
                   CownDealloc 24; QueueDestroy 0%nat]
    /\ cowns (cores w' 0%nat) = []
    /\ servicing_threads (cores w' 0%nat) = 0.
Proof.
  destruct (teardown_sequence Demo.fair_idle Demo.started)
    as (_ & w' & Hrun & Htr & _ & Hcowns & Hserv & _);
    [discriminate|discriminate|reflexivity|].
  exists w'. repeat split; assumption.
Defined.

(** Holding cown 24, the worker keeps its fairness flag for later. *)
Lemma select_keeps_held_cown_witness :
  exists w',
    select Demo.fair_idle 3 24 (Demo.world ThreadState.NotInLD 0 true)
    = Done 24 w'
    /\ should_steal_for_fairness (thr w') = true
    /\ q (cores w' 1%nat) = [48].
Proof.
  pose proof (select_keeps_held_cown
                Demo.fair_idle 3 24 (Demo.world ThreadState.NotInLD 0 true)
                eq_refl) as H.
  destruct (select Demo.fair_idle 3 24
                   (Demo.world ThreadState.NotInLD 0 true))
    as [c w'|e w'|w'] eqn:Hsel.
  - destruct H as (-> & Ht & _ & _ & Hq). exists w'.
    rewrite Ht, Hq. repeat split.
  - vm_compute in Hsel. discriminate Hsel.
  - destruct H.
Defined.

Lemma turn_counts_registry_witness :
  let w := Demo.world ThreadState.NotInLD 0 false in
  registry_counted (world_of (turn Demo.fair_idle 3 nullptr w))
  /\ turn Demo.fair_idle 3 nullptr w
     <> Abort AssertTotalCowns (world_of (turn Demo.fair_idle 3 nullptr w)).
Proof.
  destruct (turn_counts_registry
              Demo.fair_idle 3 nullptr
              (Demo.world ThreadState.NotInLD 0 false) eq_refl)
    as [Hcount Hsafe].
  split; [exact Hcount|apply Hsafe].
Defined.

(** A stopped worker on an empty core. *)
Lemma stopped_worker_leaves_witness :
  let nowhere := fun _ : CoreId => mkCore [] [] 0 0 0 0 0 0 0%nat in
  let w := mkWorld (set_running false (Demo.worker ThreadState.NotInLD 0 false))
                   nowhere Demo.heap Demo.outside [] in
  turn Demo.fair_idle 1 nullptr w
  = Done None (mkWorld (thr w) nowhere Demo.heap (Demo.mkOutside 10 600000)
                       [AalTick 0]).
Proof.
  exact (stopped_worker_leaves
           Demo.fair_idle 0
           (mkWorld (set_running false
                       (Demo.worker ThreadState.NotInLD 0 false))
                    (fun _ : CoreId => mkCore [] [] 0 0 0 0 0 0 0%nat)
                    Demo.heap Demo.outside [])
           eq_refl eq_refl eq_refl eq_refl).
Defined.

(** A worker that has voted, and has scheduled no unscanned cown, confirms. *)
Lemma ld_protocol_loop_replies_witness :
  let script := fun s => match s with
                         | ThreadState.BelieveDone_Vote =>
                             ThreadState.BelieveDone
                         | _ => s
                         end in
  let rt := Demo.runtime true false script in
  let w := Demo.world ThreadState.BelieveDone_Vote 0 false in
  state (thr (world_of (ld_protocol_loop rt 2 w)))
  = ThreadState.BelieveDone_Confirm.
Proof.
  cbv zeta.
  rewrite (proj1 (ld_protocol_loop_replies
                    (Demo.runtime true false
                       (fun s => match s with
                                 | ThreadState.BelieveDone_Vote =>
                                     ThreadState.BelieveDone
                                 | _ => s
                                 end))
                    1 (Demo.world ThreadState.BelieveDone_Vote 0 false)
                    ThreadState.BelieveDone Demo.outside eq_refl eq_refl)
                 eq_refl).
  reflexivity.
Defined.

(** Cown 48 runs on core 0, which becomes its owner. *)
Lemma dispatch_counts_progress_witness :
  let w := Demo.world ThreadState.NotInLD 0 false in
  let w' := world_of (dispatch Demo.fair_idle 3 48 w) in
  progress_counter (cores w' 0%nat) = 1
  /\ last_worker (cores w' 0%nat) = 7
  /\ progress_counter (cores w' 1%nat) = 0.
Proof.
  pose proof (dispatch_counts_progress
                Demo.fair_idle 3 48 16
                (Demo.world ThreadState.NotInLD 0 false)
                (world_of (dispatch Demo.fair_idle 3 48
                             (Demo.world ThreadState.NotInLD 0 false)))
                eq_refl eq_refl) as H.
  split; [exact (proj1 (H 0%nat))|].
  split; [exact (proj2 (H 0%nat))|exact (proj1 (H 1%nat))].
Defined.

(** With an unscanned cown scheduled, a turn that starts no scan leaves the
    flag up. *)
Lemma unscanned_flag_sticky_witness :
  let w := mkWorld (set_scheduled_unscanned_cown
                      true (Demo.worker ThreadState.NotInLD 0 false))
                   Demo.cores Demo.heap Demo.outside [] in
  let w' := world_of (turn Demo.fair_idle 3 nullptr w) in
  scheduled_unscanned_cown (thr w') = true
  \/ (scan_lines (trace w) < scan_lines (trace w'))%nat.
Proof.
  exact (proj1 (unscanned_flag_sticky
                  Demo.fair_idle
                  (mkWorld (set_scheduled_unscanned_cown
                              true
                              (Demo.worker ThreadState.NotInLD 0 false))
                           Demo.cores Demo.heap Demo.outside [])
                  eq_refl)
               3%nat nullptr).
Defined.
